(** * Train traffic control backend: a shallow embedding of [backend.py]

    The embedding follows the Python source function by function.

    - Numbers that the program computes with ([position], [speed], clock
      readings) are rationals [Q]; equality of computed rationals is [Qeq].
      Track numbers and priorities are integers [Z].
    - The dictionaries [system_state["trains"]] and [system_state["signals"]]
      are association lists in insertion order, which is the order in which
      Python iterates over them.
    - [time.time()] is an oracle [wall : nat -> Q]: the [n]-th call of a run
      returns [wall n]; the number of calls made so far is part of the
      threaded state.
    - An exception ([KeyError], [IndexError], [TypeError]) is an explicit
      error result. *)

From Stdlib Require Import ZArith QArith Qabs List String Bool Lia Permutation.
From Stdlib Require Import DecimalString Lqa Sorted.
Import ListNotations.

Local Open Scope string_scope.
Local Open Scope Q_scope.

(** ** Comparisons on rationals *)

Definition Qltb (x y : Q) : bool := negb (Qle_bool y x).

(** ** Data model *)

Inductive SignalState : Type := GREEN | RED.

Definition SignalState_eqb (a b : SignalState) : bool :=
  match a, b with
  | GREEN, GREEN | RED, RED => true
  | _, _ => false
  end.

Inductive Level : Type := INFO | WARNING | ACTION.

(** A train dictionary.  The key ["id"] is absent from the dictionaries
    built by [setup_initial_state]; [get_system_state] is the only writer of
    it. *)
Record Train : Type := mkTrain {
  tr_track : Z;
  tr_position : Q;
  tr_speed : Q;
  tr_status : string;
  tr_priority : Z;
  tr_last_update : Q;
  tr_id : option string
}.

Record Signal : Type := mkSignal {
  sg_track : Z;
  sg_position : Q;
  sg_state : SignalState
}.

Record Junction : Type := mkJunction {
  jn_tracks : list Z;
  jn_position : Q;
  jn_controlled_by : list string
}.

Record LogEntry : Type := mkLog {
  lg_timestamp : Q;
  lg_level : Level;
  lg_message : string
}.

(** [system_state]. *)
Record World : Type := mkWorld {
  trains : list (string * Train);
  signals : list (string * Signal);
  lengths : list (Z * Q);
  junctions : list (string * Junction);
  ai_log : list LogEntry;
  kpis : list (string * Q)
}.

Definition set_position (t : Train) (p : Q) : Train :=
  mkTrain (tr_track t) p (tr_speed t) (tr_status t) (tr_priority t)
          (tr_last_update t) (tr_id t).

Definition set_status (t : Train) (s : string) : Train :=
  mkTrain (tr_track t) (tr_position t) (tr_speed t) s (tr_priority t)
          (tr_last_update t) (tr_id t).

Definition set_last_update (t : Train) (u : Q) : Train :=
  mkTrain (tr_track t) (tr_position t) (tr_speed t) (tr_status t)
          (tr_priority t) u (tr_id t).

Definition set_id (t : Train) (k : string) : Train :=
  mkTrain (tr_track t) (tr_position t) (tr_speed t) (tr_status t)
          (tr_priority t) (tr_last_update t) (Some k).

Definition set_state (s : Signal) (c : SignalState) : Signal :=
  mkSignal (sg_track s) (sg_position s) c.

(** Dictionary lookup [d[k]]. *)
Fixpoint lookup {K V : Type} (eqb : K -> K -> bool) (k : K) (d : list (K * V))
  : option V :=
  match d with
  | [] => None
  | (k', v) :: r => if eqb k k' then Some v else lookup eqb k r
  end.

Definition keys {K V : Type} (d : list (K * V)) : list K := map fst d.

(** [str(n)] for a Python integer. *)
Definition str_int (n : Z) : string := NilZero.string_of_int (Z.to_int n).

(** ** The effects of a tick: clock reads, log writes, [KeyError] *)

Inductive Err : Type := KeyError | IndexError | TypeError.

Inductive Res (A : Type) : Type :=
| Ok (a : A)
| Raise (e : Err).
Arguments Ok {A} a.
Arguments Raise {A} e.

(** The part of the machine state that the helpers thread: how many times
    [time.time()] has been called, and [system_state["ai_log"]]. *)
Record Env : Type := mkEnv {
  clk : nat;
  log : list LogEntry
}.

Definition M (A : Type) : Type := Env -> Res (A * Env).

Definition ret {A : Type} (a : A) : M A := fun e => Ok (a, e).

Definition bind {A B : Type} (m : M A) (f : A -> M B) : M B :=
  fun e => match m e with
           | Ok (a, e') => f a e'
           | Raise x => Raise x
           end.

Definition raise {A : Type} (x : Err) : M A := fun _ => Raise x.

Notation "x <- m ;; k" := (bind m (fun x => k))
  (at level 61, m at next level, right associativity).
Notation "m ;;; k" := (bind m (fun _ => k))
  (at level 61, right associativity).

Fixpoint mapM {A B : Type} (f : A -> M B) (l : list A) : M (list B) :=
  match l with
  | [] => ret []
  | a :: r => b <- f a ;; bs <- mapM f r ;; ret (b :: bs)
  end.

Section Engine.

(** The [n]-th call of [time.time()] returns [wall n]. *)
Variable wall : nat -> Q.

Definition time_time : M Q :=
  fun e => Ok (wall (clk e), mkEnv (S (clk e)) (log e)).

(** [log_ai_decision]: insert at index 0, then pop the last entry when the
    list has grown beyond 100. *)
Definition log_ai_decision (level : Level) (message : string) : M unit :=
  fun e =>
    let entry := mkLog (wall (clk e)) level message in
    let l := entry :: log e in
    let l' := if (100 <? List.length l)%nat then removelast l else l in
    Ok (tt, mkEnv (S (clk e)) l').

(** *** Step 1: train advancement *)

(** The inner [for] loop over the signals: the identifier of the first
    signal, in iteration order, that is on the train's track, strictly
    ahead, less than 5 units away and not GREEN. *)
Definition blocks (data : Train) (sig_data : Signal) : bool :=
  (sg_track sig_data =? tr_track data)%Z
  && Qltb (tr_position data) (sg_position sig_data)
  && Qltb (sg_position sig_data - tr_position data) 5
  && negb (SignalState_eqb (sg_state sig_data) GREEN).

Fixpoint blocking_signal (sigs : list (string * Signal)) (data : Train)
  : option string :=
  match sigs with
  | [] => None
  | (sig_id, sig_data) :: r =>
      if blocks data sig_data then Some sig_id else blocking_signal r data
  end.

Definition completed_message (train_id : string) (data : Train) : string :=
  "Train " ++ train_id ++ " has completed its journey on track "
    ++ str_int (tr_track data + 1) ++ ".".

(** The body of the loop over [system_state["trains"].items()]. *)
Definition advance_train (sigs : list (string * Signal)) (lens : list (Z * Q))
           (train_id : string) (data : Train) : M Train :=
  now <- time_time ;;
  let elapsed := now - tr_last_update data in
  let data1 :=
    match blocking_signal sigs data with
    | Some sig_id => set_status data ("Waiting at signal " ++ sig_id)
    | None =>
        let distance := tr_speed data * (elapsed / 3600) in
        set_status (set_position data (tr_position data + distance)) "On Time"
    end in
  now' <- time_time ;;
  let data2 := set_last_update data1 now' in
  match lookup Z.eqb (tr_track data2) lens with
  | None => raise KeyError
  | Some len =>
      if Qle_bool len (tr_position data2) then
        log_ai_decision INFO (completed_message train_id data2) ;;;
        ret (set_position data2 0)
      else ret data2
  end.

Definition advance_item (sigs : list (string * Signal)) (lens : list (Z * Q))
           (kv : string * Train) : M (string * Train) :=
  data' <- advance_train sigs lens (fst kv) (snd kv) ;;
  ret (fst kv, data').

Definition advance_trains (sigs : list (string * Signal)) (lens : list (Z * Q))
           (ts : list (string * Train)) : M (list (string * Train)) :=
  mapM (advance_item sigs lens) ts.

(** *** Step 2: signal recomputation *)

Definition occupies (sig_data : Signal) (train_data : Train) : bool :=
  (tr_track train_data =? sg_track sig_data)%Z
  && Qltb (sg_position sig_data) (tr_position train_data)
  && Qltb (tr_position train_data) (sg_position sig_data + 20).

(** The inner [for] loop over the trains: the first train, in iteration
    order, found in the block of the signal. *)
Fixpoint occupant (ts : list (string * Train)) (sig_data : Signal)
  : option string :=
  match ts with
  | [] => None
  | (train_id, train_data) :: r =>
      if occupies sig_data train_data then Some train_id
      else occupant r sig_data
  end.

(** First loop: every signal is set to RED. *)
Definition all_red (sigs : list (string * Signal)) : list (string * Signal) :=
  map (fun kv => (fst kv, set_state (snd kv) RED)) sigs.

Definition path_message (sig_id train_id : string) : string :=
  "Path not clear for signal " ++ sig_id ++ ". Train " ++ train_id
    ++ " in block.".

(** Body of the second loop. *)
Definition manage_signal (ts : list (string * Train)) (kv : string * Signal)
  : M (string * Signal) :=
  match occupant ts (snd kv) with
  | Some train_id =>
      log_ai_decision ACTION (path_message (fst kv) train_id) ;;;
      ret kv
  | None => ret (fst kv, set_state (snd kv) GREEN)
  end.

Definition manage_signals (ts : list (string * Train))
           (sigs : list (string * Signal)) : M (list (string * Signal)) :=
  mapM (manage_signal ts) (all_red sigs).

(** *** Step 3: junction conflicts *)

Definition near_junction (j : Junction) (p : Q) : bool :=
  Qltb (Qabs (p - jn_position j)) 25.

Definition contends (j : Junction) (kv : string * Train) : bool :=
  existsb (Z.eqb (tr_track (snd kv))) (jn_tracks j)
  && near_junction j (tr_position (snd kv)).

Definition trains_near (j : Junction) (ts : list (string * Train))
  : list (string * Train) :=
  filter (contends j) ts.

(** [list.sort(key=lambda x: x[1]['priority'])] is a stable sort: elements
    with equal keys keep their relative order.  Insertion from the right,
    placing an element before the first one whose key is not smaller,
    computes the same list. *)
Fixpoint insert_by_priority (x : string * Train) (l : list (string * Train))
  : list (string * Train) :=
  match l with
  | [] => [x]
  | y :: r =>
      if (tr_priority (snd x) <=? tr_priority (snd y))%Z then x :: y :: r
      else y :: insert_by_priority x r
  end.

Fixpoint sort_by_priority (l : list (string * Train)) : list (string * Train) :=
  match l with
  | [] => []
  | x :: r => insert_by_priority x (sort_by_priority r)
  end.

Definition conflict_message (winner_id : string) : string :=
  "Conflict near Junction J1. Prioritizing " ++ winner_id ++ ".".

Definition red_message (sid tid : string) : string :=
  "Setting signal " ++ sid ++ " to RED for train " ++ tid ++ ".".

(** Body of the loop over the signals, for the contending train [tid]. *)
Definition force_signal (j : Junction) (winner_id : string)
           (tid : string) (tdata : Train) (kv : string * Signal)
  : M (string * Signal) :=
  if (sg_track (snd kv) =? tr_track tdata)%Z
     && near_junction j (sg_position (snd kv))
  then
    if String.eqb tid winner_id
    then ret (fst kv, set_state (snd kv) GREEN)
    else log_ai_decision ACTION (red_message (fst kv) tid) ;;;
         ret (fst kv, set_state (snd kv) RED)
  else ret kv.

(** The loop over the sorted contenders. *)
Fixpoint force_signals (j : Junction) (winner_id : string)
         (near : list (string * Train)) (sigs : list (string * Signal))
  : M (list (string * Signal)) :=
  match near with
  | [] => ret sigs
  | (tid, tdata) :: r =>
      sigs' <- mapM (force_signal j winner_id tid tdata) sigs ;;
      force_signals j winner_id r sigs'
  end.

Definition junction_conflicts (juncs : list (string * Junction))
           (ts : list (string * Train)) (sigs : list (string * Signal))
  : M (list (string * Signal)) :=
  match lookup String.eqb "J1" juncs with
  | None => raise KeyError
  | Some j1 =>
      let trains_near_j1 := trains_near j1 ts in
      if (1 <? List.length trains_near_j1)%nat then
        let sorted := sort_by_priority trains_near_j1 in
        match sorted with
        | [] => raise IndexError
        | (winner_id, _) :: _ =>
            log_ai_decision WARNING (conflict_message winner_id) ;;;
            force_signals j1 winner_id sorted sigs
        end
      else ret sigs
  end.

(** *** One iteration of [ai_simulation_thread] *)

Definition tick_body (w : World)
  : M (list (string * Train) * list (string * Signal)) :=
  ts <- advance_trains (signals w) (lengths w) (trains w) ;;
  sg2 <- manage_signals ts (signals w) ;;
  sg3 <- junction_conflicts (junctions w) ts sg2 ;;
  ret (ts, sg3).

(** [tick w c]: the state after one iteration started in state [w] when
    [time.time()] has been called [c] times, and the number of calls made
    by then. *)
Definition tick (w : World) (c : nat) : Res (World * nat) :=
  match tick_body w (mkEnv c (ai_log w)) with
  | Ok ((ts, sgs), e) =>
      Ok (mkWorld ts sgs (lengths w) (junctions w) (log e) (kpis w), clk e)
  | Raise x => Raise x
  end.

End Engine.

(** The configuration of [setup_initial_state], read at clock reading
    [t0]. *)
Definition initial_trains (t0 : Q) : list (string * Train) :=
  [ ("T123", mkTrain 0 10 80 "On Time" 1 t0 None);
    ("T456", mkTrain 1 40 70 "On Time" 2 t0 None);
    ("T789", mkTrain 2 80 90 "On Time" 1 t0 None);
    ("T246", mkTrain 1 95 85 "On Time" 3 t0 None) ].

Definition initial_signals : list (string * Signal) :=
  [ ("S1", mkSignal 0 25 GREEN); ("S2", mkSignal 0 75 GREEN);
    ("S3", mkSignal 1 25 GREEN); ("S4", mkSignal 1 75 GREEN);
    ("S5", mkSignal 2 25 GREEN); ("S6", mkSignal 2 75 GREEN) ].

Definition initial_lengths : list (Z * Q) := [ (0%Z, 100); (1%Z, 100); (2%Z, 100) ].

Definition initial_junctions : list (string * Junction) :=
  [ ("J1", mkJunction [0%Z; 1%Z] 50 ["S2"; "S4"]) ].

Definition initial_kpis : list (string * Q) :=
  [ ("punctuality", 991 # 10); ("avg_delay", 12 # 10);
    ("total_trains", 150); ("delayed_trains", 5) ].

Definition initial_world (t0 : Q) : World :=
  mkWorld (initial_trains t0) initial_signals initial_lengths
          initial_junctions
          [ mkLog t0 INFO "System initialized. AI engine is active." ]
          initial_kpis.


(** ** [get_system_state]

    [response["trains"]] is [list(system_state["trains"].values())]: a new
    list that holds the same dictionary objects as [system_state["trains"]].
    The objects live in a store and both containers hold addresses, so that
    a write through one is seen through the other. *)

Definition Addr : Type := nat.
Definition Store : Type := list Train.

Fixpoint store_update (h : Store) (a : Addr) (f : Train -> Train) : Store :=
  match h, a with
  | [], _ => []
  | t :: r, O => f t :: r
  | t :: r, S a' => t :: store_update r a' f
  end.

(** The train dictionary as it sits in memory: keys bound to addresses. *)
Definition train_refs (ts : list (string * Train)) : list (string * Addr) :=
  combine (keys ts) (seq 0 (List.length ts)).

Definition train_store (ts : list (string * Train)) : Store := map snd ts.

Fixpoint deref_values (h : Store) (l : list Addr) : list Train :=
  match l with
  | [] => []
  | a :: r =>
      match nth_error h a with
      | Some t => t :: deref_values h r
      | None => deref_values h r
      end
  end.

Fixpoint deref_items (h : Store) (d : list (string * Addr))
  : list (string * Train) :=
  match d with
  | [] => []
  | (k, a) :: r =>
      match nth_error h a with
      | Some t => (k, t) :: deref_items h r
      | None => deref_items h r
      end
  end.

(** [for i, train_id in enumerate(...keys()): if i < len(resp): resp[i]["id"] = train_id] *)
Definition tag_ids (ks : list string) (resp : list Addr) (h : Store) : Store :=
  fold_left
    (fun h' (it : nat * string) =>
       match nth_error resp (fst it) with
       | Some a => store_update h' a (fun t => set_id t (snd it))
       | None => h'
       end)
    (combine (seq 0 (List.length ks)) ks) h.

Record StateResponse : Type := mkStateResponse {
  rs_trains : list Train;
  rs_signals : list (string * Signal);
  rs_logs : list LogEntry;
  rs_kpis : list (string * Q)
}.

(** The document handed to [jsonify], and [system_state] after the call. *)
Definition get_system_state (since_timestamp : Q) (w : World)
  : StateResponse * World :=
  let refs := train_refs (trains w) in
  let h := train_store (trains w) in
  let recent_logs :=
    filter (fun l => Qltb since_timestamp (lg_timestamp l)) (ai_log w) in
  let response_trains := map snd refs in
  let h' := tag_ids (map fst refs) response_trains h in
  (mkStateResponse (deref_values h' response_trains) (signals w)
                   recent_logs (kpis w),
   mkWorld (deref_items h' refs) (signals w) (lengths w) (junctions w)
           (ai_log w) (kpis w)).

(** ** [simulate_scenario] *)

(** The values of the fields of the posted JSON object.  Numbers with a
    fraction, arrays and nested objects are left out. *)
Inductive Json : Type :=
| JNull
| JBool (b : bool)
| JInt (z : Z)
| JStr (s : string).

(** [data.get(k)]: [None] when the key is absent. *)
Definition json_get (k : string) (data : list (string * Json)) : Json :=
  match lookup String.eqb k data with
  | Some v => v
  | None => JNull
  end.

(** How an f-string renders a value. *)
Definition json_str (v : Json) : string :=
  match v with
  | JNull => "None"
  | JBool true => "True"
  | JBool false => "False"
  | JInt z => str_int z
  | JStr s => s
  end.

(** [v + 1]. *)
Definition json_succ (v : Json) : Res Json :=
  match v with
  | JNull => Raise TypeError
  | JBool b => Ok (JInt (Z.b2z b + 1))
  | JInt z => Ok (JInt (z + 1))
  | JStr _ => Raise TypeError
  end.

Definition json_is (v : Json) (s : string) : bool :=
  match v with
  | JStr s' => String.eqb s' s
  | _ => false
  end.

Record ScenarioResponse : Type := mkScenario {
  scenario : string;
  plan : list string;
  impact : string
}.

Definition unknown_response : ScenarioResponse :=
  mkScenario "Unknown" [] "Analysis in progress...".

Definition simulate_scenario (data : list (string * Json))
  : Res ScenarioResponse :=
  let event_type := json_get "event_type" data in
  if json_is event_type "delay" then
    let train_id := json_str (json_get "train_id" data) in
    let delay := json_str (json_get "delay" data) in
    Ok (mkScenario
          ("Train " ++ train_id ++ " is delayed by " ++ delay ++ " minutes.")
          [ "Adjust signals for all crossing trains.";
            "Prioritize holding lower-priority trains if conflicting with "
              ++ train_id ++ ".";
            "Re-route " ++ train_id ++ " if track becomes congested." ]
          "Minor cascading delays expected on 2-3 trains.")
  else if json_is event_type "track_closure" then
    let duration := json_str (json_get "duration" data) in
    match json_succ (json_get "track_id" data) with
    | Raise x => Raise x
    | Ok n =>
        Ok (mkScenario
              ("Track " ++ json_str n ++ " closed for " ++ duration
                 ++ " minutes.")
              [ "Set all signals on Track " ++ json_str n ++ " to RED.";
                "Re-route approaching trains via junctions.";
                "Hold trains currently on this track at nearest signal." ]
              "Significant delays expected on this track.")
    end
  else if json_is event_type "new_train" then
    let train_id := json_str (json_get "train_id" data) in
    match json_succ (json_get "track_id" data) with
    | Raise x => Raise x
    | Ok n =>
        Ok (mkScenario
              ("Add unscheduled train " ++ train_id ++ " on Track "
                 ++ json_str n ++ ".")
              [ "Analyze current traffic to find safe insertion window.";
                "Adjust signals to create gap for " ++ train_id ++ ".";
                "Adjust schedule for 2-4 other trains on same track." ]
              "Minimal impact if traffic is light.")
    end
  else Ok unknown_response.

(** A clock that advances by one second per reading. *)
Definition clock1 (n : nat) : Q := inject_Z (Z.of_nat n).

(** ** Vocabulary of the properties *)



(** The train dictionary after the body of step 1, given the position and
    status that the signal scan and the advance produced. *)
Definition moved (t : Train) (p : Q) (st : string) (u : Q) : Train :=
  mkTrain (tr_track t) p (tr_speed t) st (tr_priority t) u (tr_id t).

(** What step 2 stores for one signal. *)
Definition recomputed (ts : list (string * Train)) (kv : string * Signal)
  : string * Signal :=
  (fst kv,
   set_state (snd kv)
             (match occupant ts (snd kv) with Some _ => RED | None => GREEN end)).

(** What step 3 stores for one signal and one contending train. *)
Definition forced (j : Junction) (winner_id : string) (s : Signal)
           (kv : string * Train) : Signal :=
  if (sg_track s =? tr_track (snd kv))%Z && near_junction j (sg_position s)
  then set_state s (if String.eqb (fst kv) winner_id then GREEN else RED)
  else s.

(** What step 3 stores for one signal after the loop over the contenders. *)
Definition forced_all (j : Junction) (winner_id : string)
           (near : list (string * Train)) (s : Signal) : Signal :=
  fold_left (forced j winner_id) near s.

(** What step 3 stores in the signal dictionary for the junction [j]. *)
Definition arbitrated (j : Junction) (ts : list (string * Train))
           (sigs : list (string * Signal)) : list (string * Signal) :=
  let near := trains_near j ts in
  if (1 <? List.length near)%nat then
    let sorted := sort_by_priority near in
    match sorted with
    | [] => sigs
    | (winner_id, _) :: _ =>
        map (fun kv => (fst kv, forced_all j winner_id sorted (snd kv))) sigs
    end
  else sigs.



(** The loop body of step 1 run [n] times in a row on one train. *)
Fixpoint advance_n (wall : nat -> Q) (sigs : list (string * Signal))
         (lens : list (Z * Q)) (train_id : string) (n : nat) (data : Train)
  : M Train :=
  match n with
  | O => ret data
  | S n' =>
      data' <- advance_train wall sigs lens train_id data ;;
      advance_n wall sigs lens train_id n' data'
  end.




(** Two trains of equal priority near J1, on its two tracks; the one with
    the greater identifier was inserted first. *)
Definition tie_trains : list (string * Train) :=
  [ ("T2", mkTrain 0 45 80 "On Time" 1 0 None);
    ("T1", mkTrain 1 55 70 "On Time" 1 0 None) ].

Definition tie_world : World :=
  mkWorld tie_trains
          [ ("S1", mkSignal 0 30 GREEN); ("S3", mkSignal 1 30 GREEN) ]
          initial_lengths initial_junctions [] initial_kpis.


(** What a tick never writes in a train and in a signal. *)
Definition same_train_frame (a b : string * Train) : Prop :=
  fst b = fst a /\
  tr_track (snd b) = tr_track (snd a) /\
  tr_speed (snd b) = tr_speed (snd a) /\
  tr_priority (snd b) = tr_priority (snd a) /\
  tr_id (snd b) = tr_id (snd a).

Definition same_signal_frame (a b : string * Signal) : Prop :=
  fst b = fst a /\
  sg_track (snd b) = sg_track (snd a) /\
  sg_position (snd b) = sg_position (snd a).

(** The initial configuration without its junction. *)
Definition no_junction_world : World :=
  mkWorld (initial_trains 0) initial_signals initial_lengths [] [] initial_kpis.

(** A log whose timestamps never increase from the head on. *)
Definition newest_first (l : list LogEntry) : Prop :=
  StronglySorted (fun a b => lg_timestamp b <= lg_timestamp a) l.



(** What [get_system_state] makes of one item of the train dictionary. *)
Definition tag_id (kv : string * Train) : string * Train :=
  (fst kv, set_id (snd kv) (fst kv)).

(** The junction dictionary with every ["controlled_by"] list replaced. *)
Definition recontrol (cb : string -> list string)
           (juncs : list (string * Junction)) : list (string * Junction) :=
  map (fun kv => (fst kv, mkJunction (jn_tracks (snd kv))
                                     (jn_position (snd kv)) (cb (fst kv))))
      juncs.

Definition recontrol_world (cb : string -> list string) (w : World) : World :=
  mkWorld (trains w) (signals w) (lengths w) (recontrol cb (junctions w))
          (ai_log w) (kpis w).

(** * Properties *)

(** ** Comparisons *)




(** ** The loop combinator *)

Section MapM.

Context {A B : Type}.
Variable f : A -> M B.

(** A loop whose body always returns, and returns a value that does not
    depend on the threaded state, computes a [map]. *)
Lemma mapM_pure (g : A -> B) :
  (forall a e, exists e', f a e = Ok (g a, e')) ->
  forall l e, exists e', mapM f l e = Ok (map g l, e').
Proof.
  intros Hf l. induction l as [|a r IH]; intro e; simpl.
  - exists e. reflexivity.
  - unfold bind. destruct (Hf a e) as [e1 ->].
    destruct (IH e1) as [e2 ->]. exists e2. reflexivity.
Qed.

(** A loop that returns has run its body on every element, in states that
    satisfy any invariant [I] of the body. *)
Lemma mapM_inv (I : Env -> Prop) :
  (forall a e b e', I e -> f a e = Ok (b, e') -> I e') ->
  forall l e l' e',
    I e -> mapM f l e = Ok (l', e') ->
    I e' /\
    Forall2 (fun a b => exists e1 e2, I e1 /\ f a e1 = Ok (b, e2)) l l'.
Proof.
  intros Hstep l. induction l as [|a r IH]; intros e l' e' He H; simpl in H.
  - inversion H; subst. split; [assumption | constructor].
  - unfold bind in H. destruct (f a e) as [[b e1]|] eqn:Ea; [|discriminate].
    destruct (mapM f r e1) as [[bs e2]|] eqn:Er; [|discriminate].
    inversion H; subst. clear H.
    pose proof (Hstep _ _ _ _ He Ea) as He1.
    destruct (IH _ _ _ He1 Er) as [He2 HF].
    split; [assumption|]. constructor; [|assumption].
    exists e, e1. auto.
Qed.


End MapM.

(** ** The decision log *)

Section DecisionLog.

Variable wall : nat -> Q.

Lemma removelast_length {X : Type} (l : list X) :
  List.length (removelast l) = pred (List.length l).
Proof.
  induction l as [|x [|y r] IH]; simpl in *; auto.
Qed.

Lemma log_ai_decision_ok level message e :
  exists e', log_ai_decision wall level message e = Ok (tt, e') /\
             clk e' = S (clk e) /\
             ((List.length (log e) <= 100)%nat ->
              (List.length (log e') <= 100)%nat).
Proof.
  unfold log_ai_decision. eexists. split; [reflexivity|]. cbn [clk log].
  split; [reflexivity|]. intro H.
  destruct (100 <? List.length (mkLog (wall (clk e)) level message :: log e))%nat
    eqn:L.
  - rewrite removelast_length. simpl. lia.
  - apply Nat.ltb_ge in L. exact L.
Qed.

(** C7. A call of [log_ai_decision] on a log of at most 100 entries returns;
    afterwards the new entry is at index 0 and the log has at most 100
    entries.  Below capacity the old entries all follow the new one; at
    capacity the old entries except the last (oldest) one follow it, and
    the length stays 100. *)
Theorem log_ai_decision_bounded level message e :
  (List.length (log e) <= 100)%nat ->
  exists e',
    log_ai_decision wall level message e = Ok (tt, e') /\
    let entry := mkLog (wall (clk e)) level message in
    nth_error (log e') 0 = Some entry /\
    (List.length (log e') <= 100)%nat /\
    ((List.length (log e) < 100)%nat -> log e' = entry :: log e) /\
    (List.length (log e) = 100%nat ->
     log e' = entry :: removelast (log e) /\
     List.length (log e') = 100%nat /\
     forall k, nth_error (log e') (S k) =
               if (k <? 99)%nat then nth_error (log e) k else None).
Proof.
  intro H. unfold log_ai_decision. eexists. split; [reflexivity|].
  cbv zeta. cbn [log clk].
  set (entry := mkLog (wall (clk e)) level message).
  destruct (100 <? List.length (entry :: log e))%nat eqn:L.
  - apply Nat.ltb_lt in L. simpl in L.
    assert (Hlen : List.length (log e) = 100%nat) by lia.
    destruct (log e) as [|x r] eqn:E; [simpl in Hlen; discriminate|].
    change (removelast (entry :: x :: r)) with (entry :: removelast (x :: r)).
    split; [reflexivity|].
    assert (Hr := removelast_length (x :: r)). rewrite Hlen in Hr.
    simpl pred in Hr.
    assert (Hl : List.length (entry :: removelast (x :: r)) = 100%nat)
      by (cbn [List.length]; rewrite Hr; reflexivity).
    split; [rewrite Hl; lia|].
    split; [intro; lia|].
    intros _. split; [reflexivity|]. split; [exact Hl|].
    intro k.
    change (nth_error (entry :: removelast (x :: r)) (S k))
      with (nth_error (removelast (x :: r)) k).
    destruct (Nat.ltb_spec k 99) as [Hk|Hk].
    + rewrite removelast_firstn_len. rewrite Hlen. simpl pred.
      rewrite nth_error_firstn.
      destruct (Nat.ltb_spec k 99); [reflexivity|lia].
    + apply nth_error_None. lia.
  - apply Nat.ltb_ge in L. simpl in L.
    split; [reflexivity|]. split; [simpl; lia|].
    split; [reflexivity|]. intro; lia.
Qed.

End DecisionLog.

Lemma log_ai_decision_bounded_witness :
  let e := mkEnv 7 (repeat (mkLog 0 INFO "old") 100) in
  (List.length (log e) <= 100)%nat /\
  exists e', log_ai_decision clock1 ACTION "new" e = Ok (tt, e') /\
             nth_error (log e') 0 = Some (mkLog 7 ACTION "new") /\
             List.length (log e') = 100%nat.
Proof.
  intro e.
  assert (H : (List.length (log e) <= 100)%nat) by (vm_compute; lia).
  split; [exact H|].
  destruct (log_ai_decision_bounded clock1 ACTION "new" e H)
    as (e' & Hok & Hhd & _ & _ & Hfull).
  exists e'. split; [exact Hok|]. split; [exact Hhd|].
  apply Hfull. reflexivity.
Defined.

(** ** Step 2: signal recomputation *)

Section SignalRecomputation.

Variable wall : nat -> Q.



Lemma manage_signals_eq ts sigs e :
  exists e', manage_signals wall ts sigs e = Ok (map (recomputed ts) sigs, e').
Proof.
  unfold manage_signals, all_red.
  destruct (mapM_pure (manage_signal wall ts)
              (fun kv =>
                 (fst kv,
                  set_state (snd kv)
                            (match occupant ts (snd kv) with
                             | Some _ => sg_state (snd kv)
                             | None => GREEN
                             end))))
    with (l := map (fun kv : string * Signal =>
                      (fst kv, set_state (snd kv) RED)) sigs) (e := e)
    as [e' He'].
  - intros [k s] e0. unfold manage_signal. simpl.
    destruct (occupant ts s) eqn:E.
    + unfold bind.
      destruct (log_ai_decision_ok wall ACTION (path_message k s0) e0)
        as (e1 & -> & _).
      exists e1. unfold ret. destruct s; reflexivity.
    + exists e0. reflexivity.
  - exists e'. rewrite He'. rewrite map_map. f_equal. f_equal.
    apply map_ext. intros [k s]. unfold recomputed. simpl.
    assert (Ho : occupant ts (set_state s RED) = occupant ts s).
    { clear. induction ts as [|[k d] r IH]; simpl; [reflexivity|].
      rewrite IH. reflexivity. }
    rewrite Ho. destruct (occupant ts s); reflexivity.
Qed.



End SignalRecomputation.

(** ** Step 1: train advancement *)

Section TrainAdvancement.

Variable wall : nat -> Q.



Lemma log_head entry (l : list LogEntry) :
  nth_error (if (100 <? List.length (entry :: l))%nat
             then removelast (entry :: l) else entry :: l) 0 = Some entry.
Proof.
  destruct (100 <? List.length (entry :: l))%nat eqn:E; [|reflexivity].
  destruct l as [|x r]; [discriminate|]. reflexivity.
Qed.

(** The body of step 1, case by case. *)
Lemma advance_train_step sigs lens tid t len e :
  lookup Z.eqb (tr_track t) lens = Some len ->
  let p := match blocking_signal sigs t with
           | Some _ => tr_position t
           | None => tr_position t
                     + tr_speed t * ((wall (clk e) - tr_last_update t) / 3600)
           end in
  let st := match blocking_signal sigs t with
            | Some sig_id => "Waiting at signal " ++ sig_id
            | None => "On Time"
            end in
  exists e',
    advance_train wall sigs lens tid t e =
      Ok (moved t (if Qle_bool len p then 0 else p) st (wall (S (clk e))), e') /\
    (clk e <= clk e')%nat /\
    ((List.length (log e) <= 100)%nat -> (List.length (log e') <= 100)%nat) /\
    (Qle_bool len p = false -> log e' = log e) /\
    (Qle_bool len p = true ->
     nth_error (log e') 0 =
       Some (mkLog (wall (S (S (clk e)))) INFO (completed_message tid t))).
Proof.
  intros Hlen p st. unfold advance_train, bind, time_time. cbn [clk log].
  destruct (blocking_signal sigs t) as [sig_id|] eqn:Eb;
    cbn [tr_track set_last_update set_status set_position];
    rewrite Hlen; cbn [tr_position set_last_update set_status set_position];
    fold p; destruct (Qle_bool len p) eqn:Ele.
  all: unfold log_ai_decision, ret; cbn [clk log]; eexists;
    (split; [reflexivity|]); cbn [clk log];
    (split; [lia|]); split;
    [ | split; intro Hd; try discriminate; try reflexivity ].
  all: try (intro Hb; exact Hb).
  all: try apply log_head.
  all: intro Hb;
    match goal with
    | |- context [removelast (?x :: ?l)] =>
        destruct (100 <? List.length (x :: l))%nat eqn:E100;
        [ generalize (removelast_length (x :: l)); simpl List.length;
          intro Hr; rewrite Hr; simpl; lia
        | apply Nat.ltb_ge in E100; exact E100 ]
    end.
Qed.

End TrainAdvancement.

(** ** Step 3: junction conflicts *)

Section Sorting.

Lemma insert_by_priority_perm x l :
  Permutation (insert_by_priority x l) (x :: l).
Proof.
  induction l as [|y r IH]; simpl; [reflexivity|].
  destruct (tr_priority (snd x) <=? tr_priority (snd y))%Z; [reflexivity|].
  rewrite IH. apply perm_swap.
Qed.

Lemma sort_by_priority_perm l : Permutation (sort_by_priority l) l.
Proof.
  induction l as [|x r IH]; simpl; [reflexivity|].
  rewrite insert_by_priority_perm. constructor. exact IH.
Qed.

(** The head of the sorted list is the first element of the unsorted list
    whose priority value is the least: what precedes it is strictly
    greater, what follows it is not smaller. *)
Lemma sort_by_priority_head l w rest :
  sort_by_priority l = w :: rest ->
  exists l1 l2,
    l = (l1 ++ w :: l2)%list /\
    Forall (fun x => (tr_priority (snd w) < tr_priority (snd x))%Z) l1 /\
    Forall (fun x => (tr_priority (snd w) <= tr_priority (snd x))%Z) l2.
Proof.
  revert w rest. induction l as [|x r IH]; intros w rest H; simpl in H.
  - discriminate.
  - destruct (sort_by_priority r) as [|y rest'] eqn:Er.
    + simpl in H. inversion H; subst.
      assert (r = []) as ->.
      { apply Permutation_nil. rewrite <- Er.
        apply sort_by_priority_perm. }
      exists [], []. repeat split; constructor.
    + destruct (IH y rest' eq_refl) as (l1 & l2 & -> & H1 & H2).
      simpl in H.
      destruct (Z.leb_spec (tr_priority (snd x)) (tr_priority (snd y)))
        as [L|L]; inversion H; subst; clear H.
      * exists [], (l1 ++ y :: l2)%list. split; [reflexivity|].
        split; [constructor|].
        apply Forall_app. split.
        -- eapply Forall_impl; [|exact H1]. simpl. intros; lia.
        -- constructor; [exact L|].
           eapply Forall_impl; [|exact H2]. simpl. intros; lia.
      * exists (x :: l1), l2. split; [reflexivity|].
        split; [|exact H2]. constructor; [lia|exact H1].
Qed.

End Sorting.

Section JunctionConflicts.

Variable wall : nat -> Q.





(** The loops of step 3 store [forced_all] in every signal. *)
Lemma force_signal_eq j wid tid tdata sigs e :
  exists e',
    mapM (force_signal wall j wid tid tdata) sigs e =
      Ok (map (fun kv => (fst kv, forced j wid (snd kv) (tid, tdata))) sigs, e').
Proof.
  apply mapM_pure. intros [k s] e0. unfold force_signal, forced. simpl.
  destruct ((sg_track s =? tr_track tdata)%Z && near_junction j (sg_position s)).
  - destruct (String.eqb tid wid).
    + exists e0. reflexivity.
    + unfold bind.
      destruct (log_ai_decision_ok wall ACTION (red_message k tid) e0)
        as (e1 & -> & _).
      exists e1. reflexivity.
  - exists e0. reflexivity.
Qed.

Lemma force_signals_eq j wid near sigs e :
  exists e',
    force_signals wall j wid near sigs e =
      Ok (map (fun kv => (fst kv, forced_all j wid near (snd kv))) sigs, e').
Proof.
  revert sigs e. induction near as [|[tid tdata] r IH]; intros sigs e; simpl.
  - exists e. unfold ret. f_equal. f_equal.
    rewrite <- (map_id sigs) at 1. apply map_ext. intros [k s]. reflexivity.
  - unfold bind.
    destruct (force_signal_eq j wid tid tdata sigs e) as [e1 ->].
    destruct (IH (map (fun kv => (fst kv, forced j wid (snd kv) (tid, tdata))) sigs) e1)
      as [e2 ->].
    exists e2. rewrite map_map. reflexivity.
Qed.

Lemma forced_frame j wid s kv :
  sg_track (forced j wid s kv) = sg_track s /\
  sg_position (forced j wid s kv) = sg_position s.
Proof.
  unfold forced.
  destruct ((sg_track s =? tr_track (snd kv))%Z && near_junction j (sg_position s));
    split; reflexivity.
Qed.

Lemma forced_all_frame j wid near s :
  sg_track (forced_all j wid near s) = sg_track s /\
  sg_position (forced_all j wid near s) = sg_position s.
Proof.
  unfold forced_all. revert s.
  induction near as [|x r IH]; intro s; simpl; [split; reflexivity|].
  destruct (IH (forced j wid s x)) as [-> ->]. apply forced_frame.
Qed.



End JunctionConflicts.

(** ** The whole tick *)

Section Tick.

Variable wall : nat -> Q.



Lemma junction_conflicts_eq juncs j ts sigs e :
  lookup String.eqb "J1" juncs = Some j ->
  exists e',
    junction_conflicts wall juncs ts sigs e = Ok (arbitrated j ts sigs, e').
Proof.
  intro Hj. unfold junction_conflicts, arbitrated. rewrite Hj. cbv zeta.
  destruct (1 <? List.length (trains_near j ts))%nat eqn:E.
  - destruct (sort_by_priority (trains_near j ts)) as [|[wid wd] rest] eqn:Es.
    + apply Nat.ltb_lt in E.
      rewrite <- (Permutation_length (sort_by_priority_perm _)), Es in E.
      simpl in E. lia.
    + unfold bind.
      destruct (log_ai_decision_ok wall WARNING (conflict_message wid) e)
        as (e1 & -> & _).
      apply force_signals_eq.
  - exists e. reflexivity.
Qed.

Lemma advance_item_inv sigs lens kv e1 b e2 :
  advance_item wall sigs lens kv e1 = Ok (b, e2) ->
  fst b = fst kv /\
  advance_train wall sigs lens (fst kv) (snd kv) e1 = Ok (snd b, e2).
Proof.
  unfold advance_item, bind.
  destruct (advance_train wall sigs lens (fst kv) (snd kv) e1) as [[t' e']|];
    [|discriminate].
  unfold ret. intro H. inversion H; subst. split; reflexivity.
Qed.


Lemma advance_item_clock sigs lens kv e b e' :
  advance_item wall sigs lens kv e = Ok (b, e') -> (clk e <= clk e')%nat.
Proof.
  intro H. apply advance_item_inv in H. destruct H as [_ H].
  destruct (lookup Z.eqb (tr_track (snd kv)) lens) as [len|] eqn:El.
  - destruct (advance_train_step wall sigs lens (fst kv) (snd kv) len e El)
      as (e1 & H1 & Hc & _).
    rewrite H1 in H. inversion H; subst. exact Hc.
  - unfold advance_train, bind, time_time in H. cbn [clk log] in H.
    destruct (blocking_signal sigs (snd kv));
      cbn [tr_track set_last_update set_status set_position] in H;
      rewrite El in H; discriminate.
Qed.

(** Every train dictionary after step 1 is the result of the loop body on
    the dictionary of the same key, run at some moment of the tick. *)
Lemma advance_trains_items sigs lens ts e ts' e' :
  advance_trains wall sigs lens ts e = Ok (ts', e') ->
  Forall2 (fun a b => exists e1 e2,
             (clk e <= clk e1)%nat /\
             fst b = fst a /\
             advance_train wall sigs lens (fst a) (snd a) e1 = Ok (snd b, e2))
          ts ts'.
Proof.
  intro H. unfold advance_trains in H.
  destruct (mapM_inv (advance_item wall sigs lens)
                     (fun e1 => (clk e <= clk e1)%nat)) with
      (l := ts) (e := e) (l' := ts') (e' := e') as [_ HF].
  - intros a e0 b e1 He0 Ha. apply advance_item_clock in Ha. lia.
  - lia.
  - exact H.
  - eapply Forall2_impl; [|exact HF].
    intros a b (e1 & e2 & Hc & Ha). apply advance_item_inv in Ha.
    exists e1, e2. tauto.
Qed.


End Tick.

(** ** The log stays bounded across a tick *)

Section LogAcrossTick.

Variable wall : nat -> Q.







End LogAcrossTick.

(** ** Trains after a tick *)

Section TrainsAfterTick.

Variable wall : nat -> Q.



End TrainsAfterTick.


Lemma clock1_monotone m n : (m <= n)%nat -> clock1 m <= clock1 n.
Proof.
  intro H. unfold clock1. rewrite <- Zle_Qle. lia.
Qed.


Section BlockedTrain.

Variable wall : nat -> Q.


End BlockedTrain.



(** ** The distance covered in one second *)

Section OneSecond.

Variable wall : nat -> Q.


End OneSecond.



(** With one-second steps the train reaches 99.9 after 29 steps and wraps
    to 0, with a completion entry, at step 30. *)
Example thirty_seconds :
  let t := mkTrain 0 97 360 "On Time" 1 9 None in
  (exists t' e',
     advance_n clock1 initial_signals initial_lengths "T1" 29 t (mkEnv 10 [])
       = Ok (t', e') /\
     tr_position t' == 999 # 10 /\ log e' = []) /\
  (exists t' e',
     advance_n clock1 initial_signals initial_lengths "T1" 30 t (mkEnv 10 [])
       = Ok (t', e') /\
     tr_position t' = 0 /\
     log e' = [ mkLog 70 INFO "Train T1 has completed its journey on track 1." ]).
Proof.
  cbv zeta. split.
  - eexists. eexists. split; [vm_compute; reflexivity|].
    split; reflexivity.
  - eexists. eexists. split; [vm_compute; reflexivity|].
    split; reflexivity.
Qed.

(** ** Arbitration at junction J1 *)

Section Arbitration.

Variable wall : nat -> Q.

Lemma keys_functional {V : Type} (l : list (string * V)) k a b :
  NoDup (keys l) -> In (k, a) l -> In (k, b) l -> a = b.
Proof.
  unfold keys. induction l as [|[k' v] r IH]; simpl; intros Hnd Ha Hb.
  - destruct Ha.
  - inversion Hnd as [|? ? Hk Hr]; subst.
    destruct Ha as [Ha|Ha], Hb as [Hb|Hb].
    + congruence.
    + inversion Ha; subst. exfalso. apply Hk.
      apply in_map_iff. exists (k, b). auto.
    + inversion Hb; subst. exfalso. apply Hk.
      apply in_map_iff. exists (k, a). auto.
    + auto.
Qed.





End Arbitration.

Section JunctionJ1.

Variable wall : nat -> Q.



(** C5 (as the code has it). The winner of the arbitration is the first
    train, in the iteration order of the train dictionary, among the
    contenders of least priority value: the contenders before it have a
    strictly greater value, those after it a value that is not smaller.
    It is the identifier that step 3 uses, and it is a function of the
    ordered dictionary. *)
Theorem arbitration_winner_first_of_least j ts wid wd rest :
  sort_by_priority (trains_near j ts) = (wid, wd) :: rest ->
  (exists l1 l2,
     trains_near j ts = (l1 ++ (wid, wd) :: l2)%list /\
     (forall tid t, In (tid, t) l1 -> (tr_priority wd < tr_priority t)%Z) /\
     (forall tid t, In (tid, t) l2 -> (tr_priority wd <= tr_priority t)%Z)) /\
  (forall juncs sigs e,
     lookup String.eqb "J1" juncs = Some j ->
     (1 < List.length (trains_near j ts))%nat ->
     exists e',
       junction_conflicts wall juncs ts sigs e =
         Ok (map (fun kv =>
                    (fst kv, forced_all j wid ((wid, wd) :: rest) (snd kv)))
                 sigs, e')).
Proof.
  intro Hs. split.
  - destruct (sort_by_priority_head _ _ _ Hs) as (l1 & l2 & Hl & H1 & H2).
    exists l1, l2. split; [exact Hl|].
    rewrite Forall_forall in H1, H2.
    split; intros tid t Hin; [apply (H1 _ Hin)|apply (H2 _ Hin)].
  - intros juncs sigs e Hj Hlen.
    destruct (junction_conflicts_eq wall juncs j ts sigs e Hj) as [e' He'].
    exists e'. rewrite He'. unfold arbitrated. cbv zeta.
    apply Nat.ltb_lt in Hlen. rewrite Hlen, Hs. reflexivity.
Qed.

End JunctionJ1.






Lemma arbitration_winner_first_of_least_witness :
  let j := mkJunction [0%Z; 1%Z] 50 ["S2"; "S4"] in
  let t2 := mkTrain 0 45 80 "On Time" 1 0 None in
  let t1 := mkTrain 1 55 70 "On Time" 1 0 None in
  sort_by_priority (trains_near j tie_trains) = [("T2", t2); ("T1", t1)] /\
  exists l1 l2,
    trains_near j tie_trains = (l1 ++ ("T2", t2) :: l2)%list /\
    (forall tid t, In (tid, t) l1 -> (tr_priority t2 < tr_priority t)%Z) /\
    (forall tid t, In (tid, t) l2 -> (tr_priority t2 <= tr_priority t)%Z).
Proof.
  intros j t2 t1.
  assert (Hs : sort_by_priority (trains_near j tie_trains)
               = [("T2", t2); ("T1", t1)]) by reflexivity.
  split; [exact Hs|].
  exact (proj1 (arbitration_winner_first_of_least clock1 j tie_trains
                  "T2" t2 [("T1", t1)] Hs)).
Defined.

(** C5 as stated fails: T1 and T2 contend at J1 with equal priority, T1 is
    the lexically smaller identifier, and the winner is T2, which comes
    first in the dictionary; the tick logs it.  With the two entries
    inserted in the other order the winner is T1. *)
Lemma equal_priority_winner_is_first_inserted :
  let j := mkJunction [0%Z; 1%Z] 50 ["S2"; "S4"] in
  let t2 := mkTrain 0 45 80 "On Time" 1 0 None in
  let t1 := mkTrain 1 55 70 "On Time" 1 0 None in
  tie_trains = [("T2", t2); ("T1", t1)] /\
  trains_near j tie_trains = tie_trains /\
  tr_priority t1 = tr_priority t2 /\
  String.ltb "T1" "T2" = true /\
  sort_by_priority (trains_near j tie_trains) = [("T2", t2); ("T1", t1)] /\
  sort_by_priority (trains_near j (rev tie_trains)) = [("T1", t1); ("T2", t2)] /\
  exists w' c',
    tick clock1 tie_world 0 = Ok (w', c') /\
    In (mkLog 5 WARNING "Conflict near Junction J1. Prioritizing T2.")
       (ai_log w').
Proof.
  cbv zeta. repeat (split; [reflexivity|]).
  do 2 eexists. split; [vm_compute; reflexivity|].
  simpl. right. left. reflexivity.
Qed.

(** ** The snapshot reader *)

Section SnapshotReader.

Lemma store_update_at (pre : Store) t (post : Store) f :
  store_update (pre ++ t :: post)%list (List.length pre) f
  = (pre ++ f t :: post)%list.
Proof.
  induction pre as [|x r IH]; simpl; [reflexivity|]. rewrite IH. reflexivity.
Qed.

Lemma nth_error_seq0 N a : (a < N)%nat -> nth_error (seq 0 N) a = Some a.
Proof.
  intro H. rewrite (nth_error_nth' _ 0%nat) by (rewrite length_seq; exact H).
  rewrite seq_nth by exact H. reflexivity.
Qed.

(** The tagging loop writes the key of every train into its object. *)
Lemma tag_ids_store (ts : list (string * Train)) : forall (pre : Store) N,
  (List.length pre + List.length ts <= N)%nat ->
  fold_left
    (fun h' (it : nat * string) =>
       match nth_error (seq 0 N) (fst it) with
       | Some a => store_update h' a (fun t => set_id t (snd it))
       | None => h'
       end)
    (combine (seq (List.length pre) (List.length ts)) (map fst ts))
    (pre ++ map snd ts)%list
  = (pre ++ map (fun kv => set_id (snd kv) (fst kv)) ts)%list.
Proof.
  induction ts as [|[k t] r IH]; intros pre N HN; simpl; [reflexivity|].
  simpl in HN. rewrite nth_error_seq0 by lia.
  rewrite store_update_at.
  change (pre ++ set_id t k :: map snd r)%list
    with (pre ++ [set_id t k] ++ map snd r)%list.
  rewrite app_assoc.
  replace (S (List.length pre)) with (List.length (pre ++ [set_id t k])%list)
    by (rewrite length_app; simpl; lia).
  rewrite IH by (rewrite length_app; simpl; lia).
  rewrite <- app_assoc. reflexivity.
Qed.

Lemma deref_items_store (g : string * Train -> Train) ts : forall pre : Store,
  deref_items (pre ++ map g ts)%list
              (combine (map fst ts) (seq (List.length pre) (List.length ts)))
  = map (fun kv => (fst kv, g kv)) ts.
Proof.
  induction ts as [|x r IH]; intro pre; simpl; [reflexivity|].
  rewrite nth_error_app2 by lia. rewrite Nat.sub_diag. simpl.
  f_equal.
  change (pre ++ g x :: map g r)%list with (pre ++ [g x] ++ map g r)%list.
  rewrite app_assoc.
  replace (S (List.length pre)) with (List.length (pre ++ [g x])%list)
    by (rewrite length_app; simpl; lia).
  apply IH.
Qed.

Lemma combine_keys_seq (ts : list (string * Train)) a :
  map fst (combine (keys ts) (seq a (List.length ts))) = keys ts /\
  map snd (combine (keys ts) (seq a (List.length ts))) = seq a (List.length ts).
Proof.
  unfold keys. revert a. induction ts as [|x r IH]; intro a; simpl.
  - split; reflexivity.
  - destruct (IH (S a)) as [-> ->]. split; reflexivity.
Qed.

(** What a call of [get_system_state] does to [system_state]: every train
    dictionary gets the key ["id"], bound to its own key in
    [system_state["trains"]]; nothing else changes. *)
Lemma get_system_state_effect since w :
  snd (get_system_state since w) =
    mkWorld (map (fun kv => (fst kv, set_id (snd kv) (fst kv))) (trains w))
            (signals w) (lengths w) (junctions w) (ai_log w) (kpis w).
Proof.
  unfold get_system_state. cbv zeta. cbn [snd]. f_equal.
  unfold train_refs, train_store, tag_ids, Addr.
  destruct (combine_keys_seq (trains w) 0) as [-> ->].
  unfold keys. rewrite length_map.
  pose proof (tag_ids_store (trains w) [] (List.length (trains w))
                (Nat.le_refl _)) as Ht.
  cbn [List.length app] in Ht. unfold Store in *. rewrite Ht.
  apply (deref_items_store (fun kv => set_id (snd kv) (fst kv)) (trains w) []).
Qed.

End SnapshotReader.

(** C8 fails on the code. [get_system_state] writes the key ["id"] into
    the train dictionaries of [system_state]: the list in the response
    holds the same objects.  On the initial configuration the trains of
    [system_state] differ before and after the call; signals, tracks,
    junctions, log and KPIs are the same. *)
Theorem get_system_state_writes_train_ids :
  let w := initial_world 0 in
  let w' := snd (get_system_state 0 w) in
  nth_error (trains w) 0 =
    Some ("T123", mkTrain 0 10 80 "On Time" 1 0 None) /\
  nth_error (trains w') 0 =
    Some ("T123", mkTrain 0 10 80 "On Time" 1 0 (Some "T123")) /\
  trains w' <> trains w /\
  rs_trains (fst (get_system_state 0 w)) = map snd (trains w') /\
  signals w' = signals w /\ lengths w' = lengths w /\
  junctions w' = junctions w /\ ai_log w' = ai_log w /\ kpis w' = kpis w.
Proof.
  cbv zeta. split; [reflexivity|]. split; [reflexivity|].
  split; [intro H; vm_compute in H; discriminate|].
  split; [reflexivity|]. repeat split.
Qed.

(** ** The scenario advisor *)

Lemma json_is_iff v s : json_is v s = true <-> v = JStr s.
Proof.
  destruct v; simpl; try (split; [discriminate|congruence]).
  rewrite String.eqb_eq. split; congruence.
Qed.

Lemma json_is_false v s : json_is v s = false <-> v <> JStr s.
Proof.
  rewrite <- json_is_iff. destruct (json_is v s); split; congruence.
Qed.

(** C10. A request whose event type is 'track_closure' or 'new_train' and
    whose track_id is None raises TypeError.  A request gets the response
    with scenario "Unknown" exactly when its event type is none of 'delay',
    'track_closure', 'new_train', and the response is then the generic
    one. *)
Theorem scenario_without_track_id_raises data :
  json_get "event_type" data = JStr "track_closure" \/
  json_get "event_type" data = JStr "new_train" ->
  json_get "track_id" data = JNull ->
  simulate_scenario data = Raise TypeError /\
  (forall data' r,
     simulate_scenario data' = Ok r ->
     (scenario r = "Unknown" <->
      json_get "event_type" data' <> JStr "delay" /\
      json_get "event_type" data' <> JStr "track_closure" /\
      json_get "event_type" data' <> JStr "new_train")) /\
  (forall data',
     json_get "event_type" data' <> JStr "delay" ->
     json_get "event_type" data' <> JStr "track_closure" ->
     json_get "event_type" data' <> JStr "new_train" ->
     simulate_scenario data' = Ok unknown_response).
Proof.
  intros Hev Htr. split; [|split].
  - unfold simulate_scenario. rewrite Htr.
    destruct Hev as [-> | ->]; reflexivity.
  - intros data' r. unfold simulate_scenario.
    destruct (json_is (json_get "event_type" data') "delay") eqn:E1.
    { apply json_is_iff in E1. intro H. inversion H; subst. simpl.
      split; [discriminate|]. intros [Hn _]. contradiction. }
    destruct (json_is (json_get "event_type" data') "track_closure") eqn:E2.
    { apply json_is_iff in E2.
      destruct (json_succ (json_get "track_id" data')); [|discriminate].
      intro H. inversion H; subst. simpl.
      split; [discriminate|]. intros (_ & Hn & _). contradiction. }
    destruct (json_is (json_get "event_type" data') "new_train") eqn:E3.
    { apply json_is_iff in E3.
      destruct (json_succ (json_get "track_id" data')); [|discriminate].
      intro H. inversion H; subst. simpl.
      split; [discriminate|]. intros (_ & _ & Hn). contradiction. }
    apply json_is_false in E1, E2, E3.
    intro H. inversion H; subst. simpl. tauto.
  - intros data' H1 H2 H3. unfold simulate_scenario.
    apply json_is_false in H1, H2, H3. rewrite H1, H2, H3. reflexivity.
Qed.

Lemma scenario_without_track_id_raises_witness :
  let data := [ ("event_type", JStr "track_closure"); ("duration", JInt 30) ] in
  json_get "event_type" data = JStr "track_closure" /\
  json_get "track_id" data = JNull /\
  simulate_scenario data = Raise TypeError.
Proof.
  intro data.
  split; [reflexivity|]. split; [reflexivity|].
  exact (proj1 (scenario_without_track_id_raises data
                  (or_introl eq_refl) eq_refl)).
Defined.

(** * Further properties of the engine *)

(** ** Invariants of the threaded state *)

Section EnvInvariant.

Variable wall : nat -> Q.
Variable I : Env -> Prop.
Hypothesis I_time : forall e, I e -> I (mkEnv (S (clk e)) (log e)).
Hypothesis I_log :
  forall level message e e',
    I e -> log_ai_decision wall level message e = Ok (tt, e') -> I e'.

Lemma log_then_ret_inv {X : Type} level message (x : X) e y e' :
  I e -> (log_ai_decision wall level message ;;; ret x) e = Ok (y, e') -> I e'.
Proof.
  intros Hi H. unfold bind in H.
  destruct (log_ai_decision wall level message e) as [[[] e1]|] eqn:E;
    [|discriminate].
  unfold ret in H. inversion H; subst. eapply I_log; eassumption.
Qed.

Lemma advance_train_inv sigs lens tid t e t' e' :
  I e -> advance_train wall sigs lens tid t e = Ok (t', e') -> I e'.
Proof.
  intros Hi H. unfold advance_train in H. unfold bind at 1 2 in H.
  unfold time_time in H. cbn [clk log] in H.
  pose proof (I_time _ (I_time _ Hi)) as Hi2. cbn [clk log] in Hi2.
  match type of H with
  | match lookup ?eqb ?k ?l with _ => _ end _ = _ =>
      destruct (lookup eqb k l); [|discriminate]
  end.
  match type of H with
  | (if ?b then _ else _) _ = _ => destruct b
  end.
  - eapply log_then_ret_inv; eassumption.
  - unfold ret in H. inversion H; subst. exact Hi2.
Qed.

Lemma advance_item_env_inv sigs lens kv e b e' :
  I e -> advance_item wall sigs lens kv e = Ok (b, e') -> I e'.
Proof.
  intros Hi H. unfold advance_item, bind in H.
  destruct (advance_train wall sigs lens (fst kv) (snd kv) e)
    as [[t1 e1]|] eqn:E; [|discriminate].
  unfold ret in H. inversion H; subst. eapply advance_train_inv; eassumption.
Qed.

Lemma manage_signal_inv ts kv e b e' :
  I e -> manage_signal wall ts kv e = Ok (b, e') -> I e'.
Proof.
  intros Hi H. unfold manage_signal in H.
  destruct (occupant ts (snd kv)).
  - eapply log_then_ret_inv; eassumption.
  - inversion H; subst. exact Hi.
Qed.

Lemma force_signal_inv j wid tid tdata kv e b e' :
  I e -> force_signal wall j wid tid tdata kv e = Ok (b, e') -> I e'.
Proof.
  intros Hi H. unfold force_signal in H.
  destruct ((sg_track (snd kv) =? tr_track tdata)%Z
            && near_junction j (sg_position (snd kv)));
    [destruct (String.eqb tid wid)|].
  - inversion H; subst. exact Hi.
  - eapply log_then_ret_inv; eassumption.
  - inversion H; subst. exact Hi.
Qed.

Lemma force_signals_inv j wid near : forall sigs e sigs' e',
  I e -> force_signals wall j wid near sigs e = Ok (sigs', e') -> I e'.
Proof.
  induction near as [|[tid tdata] r IH]; intros sigs e sigs' e' Hi H;
    simpl in H.
  - inversion H; subst. exact Hi.
  - unfold bind in H.
    destruct (mapM (force_signal wall j wid tid tdata) sigs e)
      as [[sg1 e1]|] eqn:E1; [|discriminate].
    refine (IH _ _ _ _ _ H).
    refine (proj1 (mapM_inv _ I _ _ _ _ _ Hi E1)).
    intros a e0 b e2 H0 Ha. eapply force_signal_inv; eassumption.
Qed.

Lemma junction_conflicts_inv juncs ts sigs e sigs' e' :
  I e -> junction_conflicts wall juncs ts sigs e = Ok (sigs', e') -> I e'.
Proof.
  intros Hi H. unfold junction_conflicts in H.
  destruct (lookup String.eqb "J1" juncs) as [j|]; [|discriminate].
  cbv zeta in H.
  destruct (1 <? List.length (trains_near j ts))%nat.
  - destruct (sort_by_priority (trains_near j ts)) as [|[wid wd] rest];
      [discriminate|].
    unfold bind in H.
    destruct (log_ai_decision wall WARNING (conflict_message wid) e)
      as [[[] e1]|] eqn:E; [|discriminate].
    eapply force_signals_inv; [|exact H]. eapply I_log; eassumption.
  - inversion H; subst. exact Hi.
Qed.

(** The three steps of a tick, taken apart. *)
Lemma tick_inversion w c w' c' :
  tick wall w c = Ok (w', c') ->
  exists ts e1 sg2 e2 sg3 e3,
    advance_trains wall (signals w) (lengths w) (trains w)
                   (mkEnv c (ai_log w)) = Ok (ts, e1) /\
    manage_signals wall ts (signals w) e1 = Ok (sg2, e2) /\
    junction_conflicts wall (junctions w) ts sg2 e2 = Ok (sg3, e3) /\
    w' = mkWorld ts sg3 (lengths w) (junctions w) (log e3) (kpis w) /\
    c' = clk e3.
Proof.
  intro H. unfold tick, tick_body, bind in H.
  destruct (advance_trains wall (signals w) (lengths w) (trains w)
                           (mkEnv c (ai_log w))) as [[ts e1]|] eqn:E1;
    [|discriminate].
  destruct (manage_signals wall ts (signals w) e1) as [[sg2 e2]|] eqn:E2;
    [|discriminate].
  destruct (junction_conflicts wall (junctions w) ts sg2 e2)
    as [[sg3 e3]|] eqn:E3; [|discriminate].
  unfold ret in H. inversion H; subst.
  exists ts, e1, sg2, e2, sg3, e3. repeat split; assumption.
Qed.

(** Whatever is kept by a clock reading and by a log write is kept by
    every step of a tick. *)
Lemma tick_steps_inv w c w' c' :
  I (mkEnv c (ai_log w)) ->
  tick wall w c = Ok (w', c') ->
  exists ts e1,
    advance_trains wall (signals w) (lengths w) (trains w)
                   (mkEnv c (ai_log w)) = Ok (ts, e1) /\
    I e1 /\ I (mkEnv c' (ai_log w')).
Proof.
  intros Hi H.
  destruct (tick_inversion w c w' c' H)
    as (ts & e1 & sg2 & e2 & sg3 & e3 & E1 & E2 & E3 & -> & ->).
  exists ts, e1. split; [exact E1|].
  assert (B1 : I e1).
  { refine (proj1 (mapM_inv _ I _ _ _ _ _ Hi E1)).
    intros a e0 b e4 H0 Ha. eapply advance_item_env_inv; eassumption. }
  split; [exact B1|].
  assert (B2 : I e2).
  { refine (proj1 (mapM_inv _ I _ _ _ _ _ B1 E2)).
    intros a e0 b e4 H0 Ha. eapply manage_signal_inv; eassumption. }
  cbn [ai_log]. destruct e3 as [c3 l3].
  exact (junction_conflicts_inv _ _ _ _ _ _ B2 E3).
Qed.

End EnvInvariant.

(** ** When a tick raises, and what it leaves alone *)

Section TickErrorsAndFrame.

Variable wall : nat -> Q.


Lemma advance_item_unknown sigs lens kv e :
  lookup Z.eqb (tr_track (snd kv)) lens = None ->
  advance_item wall sigs lens kv e = Raise KeyError.
Proof.
  intro El. unfold advance_item, bind, advance_train, time_time.
  cbn [clk log].
  destruct (blocking_signal sigs (snd kv));
    cbn [tr_track set_last_update set_status set_position];
    rewrite El; reflexivity.
Qed.



Lemma advance_train_frame sigs lens tid t e t' e' :
  advance_train wall sigs lens tid t e = Ok (t', e') ->
  tr_track t' = tr_track t /\ tr_speed t' = tr_speed t /\
  tr_priority t' = tr_priority t /\ tr_id t' = tr_id t.
Proof.
  intro H.
  destruct (lookup Z.eqb (tr_track t) lens) as [len|] eqn:El.
  - destruct (advance_train_step wall sigs lens tid t len e El)
      as (e1 & H1 & _).
    rewrite H1 in H. inversion H; subst. repeat split.
  - pose proof (advance_item_unknown sigs lens (tid, t) e El) as Hr.
    unfold advance_item, bind in Hr. cbn [fst snd] in Hr.
    rewrite H in Hr. discriminate.
Qed.

Lemma advance_trains_frame sigs lens ts e ts' e' :
  advance_trains wall sigs lens ts e = Ok (ts', e') ->
  Forall2 same_train_frame ts ts'.
Proof.
  intro H. eapply Forall2_impl; [|exact (advance_trains_items wall _ _ _ _ _ _ H)].
  intros a b (e1 & e2 & _ & Hk & Hrun).
  apply advance_train_frame in Hrun. unfold same_train_frame. tauto.
Qed.

Lemma Forall2_map_right {X Y : Type} (R : X -> Y -> Prop) (g : X -> Y) l :
  (forall x, In x l -> R x (g x)) -> Forall2 R l (map g l).
Proof.
  induction l as [|x r IH]; simpl; intro H; constructor; auto.
Qed.

Lemma Forall2_compose {X : Type} (R : X -> X -> Prop) l1 l2 l3 :
  (forall a b c, R a b -> R b c -> R a c) ->
  Forall2 R l1 l2 -> Forall2 R l2 l3 -> Forall2 R l1 l3.
Proof.
  intros Ht H12. revert l3.
  induction H12 as [|a b r1 r2 Hab _ IH]; intros l3 H23;
    inversion H23; subst; constructor; eauto.
Qed.

Lemma same_signal_frame_trans a b c :
  same_signal_frame a b -> same_signal_frame b c -> same_signal_frame a c.
Proof.
  unfold same_signal_frame. intros (A1 & A2 & A3) (B1 & B2 & B3).
  repeat split; congruence.
Qed.

Lemma recomputed_frame ts sigs :
  Forall2 same_signal_frame sigs (map (recomputed ts) sigs).
Proof.
  apply Forall2_map_right. intros [k s] _. repeat split.
Qed.

Lemma arbitrated_frame j ts sigs :
  Forall2 same_signal_frame sigs (arbitrated j ts sigs).
Proof.
  assert (Hid : Forall2 same_signal_frame sigs sigs).
  { rewrite <- (map_id sigs) at 2. apply Forall2_map_right.
    intros x _. repeat split. }
  unfold arbitrated. cbv zeta.
  destruct (1 <? List.length (trains_near j ts))%nat; [|exact Hid].
  destruct (sort_by_priority (trains_near j ts)) as [|[wid wd] rest];
    [exact Hid|].
  apply Forall2_map_right. intros [k s] _.
  destruct (forced_all_frame j wid ((wid, wd) :: rest) s) as [Ft Fp].
  repeat split; assumption.
Qed.

(** The signal dictionary after a tick, from the dictionaries before. *)
Lemma tick_signals w c w' c' :
  tick wall w c = Ok (w', c') ->
  exists j,
    lookup String.eqb "J1" (junctions w) = Some j /\
    signals w' = arbitrated j (trains w')
                            (map (recomputed (trains w')) (signals w)).
Proof.
  intro H.
  destruct (tick_inversion wall w c w' c' H)
    as (ts & e1 & sg2 & e2 & sg3 & e3 & E1 & E2 & E3 & -> & ->).
  cbn [trains signals].
  destruct (manage_signals_eq wall ts (signals w) e1) as [e2' H2].
  rewrite H2 in E2. inversion E2; subst sg2 e2'. clear E2.
  destruct (lookup String.eqb "J1" (junctions w)) as [j|] eqn:Hj.
  - exists j. split; [reflexivity|].
    destruct (junction_conflicts_eq wall (junctions w) j ts
                (map (recomputed ts) (signals w)) e2 Hj) as [e3' H3].
    rewrite H3 in E3. inversion E3; subst. reflexivity.
  - unfold junction_conflicts in E3. rewrite Hj in E3. discriminate.
Qed.

(** X2. A tick that returns leaves the track registry, the junctions and
    the KPIs as they were; it keeps the keys and the order of the train and
    signal dictionaries, the track, speed, priority and id of every train,
    and the track and position of every signal.  The clock has only been
    read forward. *)
Theorem tick_frame w c w' c' :
  tick wall w c = Ok (w', c') ->
  lengths w' = lengths w /\ junctions w' = junctions w /\
  kpis w' = kpis w /\
  Forall2 same_train_frame (trains w) (trains w') /\
  Forall2 same_signal_frame (signals w) (signals w') /\
  (c <= c')%nat.
Proof.
  intro H.
  destruct (tick_signals w c w' c' H) as (j & Hj & Hsg).
  destruct (tick_steps_inv wall (fun e => (c <= clk e)%nat)) with
      (w := w) (c := c) (w' := w') (c' := c') as (ts0 & e0 & _ & _ & Hc).
  { intros e He. simpl. lia. }
  { intros level message e e' He Hl.
    destruct (log_ai_decision_ok wall level message e) as (e1 & H1 & Hk & _).
    rewrite H1 in Hl. inversion Hl; subst. lia. }
  { simpl. lia. }
  { exact H. }
  destruct (tick_inversion wall w c w' c' H)
    as (ts & e1 & sg2 & e2 & sg3 & e3 & E1 & E2 & E3 & Hw & Hc').
  rewrite Hsg. subst w'. cbn [lengths junctions kpis trains signals clk] in *.
  repeat split; try reflexivity.
  - exact (advance_trains_frame _ _ _ _ _ _ E1).
  - eapply Forall2_compose; [exact same_signal_frame_trans| |].
    + apply recomputed_frame.
    + apply arbitrated_frame.
  - exact Hc.
Qed.

End TickErrorsAndFrame.

Lemma tick_frame_witness :
  exists w' c',
    tick clock1 (initial_world 0) 3600 = Ok (w', c') /\
    lengths w' = initial_lengths /\ junctions w' = initial_junctions /\
    Forall2 same_signal_frame initial_signals (signals w').
Proof.
  assert (H : exists w' c', tick clock1 (initial_world 0) 3600 = Ok (w', c')).
  { eexists. eexists. vm_compute. reflexivity. }
  destruct H as (w' & c' & H). exists w', c'. split; [exact H|].
  destruct (tick_frame clock1 (initial_world 0) 3600 w' c' H)
    as (Hl & Hj & _ & _ & Hs & _).
  repeat split; assumption.
Defined.

(** ** The log across a tick *)

Section LogShape.

Variable wall : nat -> Q.

Lemma log_ai_decision_firstn level message e :
  (List.length (log e) <= 100)%nat ->
  log_ai_decision wall level message e =
    Ok (tt, mkEnv (S (clk e))
                  (firstn 100 (mkLog (wall (clk e)) level message :: log e))).
Proof.
  intro H. unfold log_ai_decision. cbv zeta.
  set (entry := mkLog (wall (clk e)) level message).
  destruct (100 <? List.length (entry :: log e))%nat eqn:L.
  - apply Nat.ltb_lt in L. simpl in L.
    rewrite removelast_firstn_len.
    replace (pred (List.length (entry :: log e))) with 100%nat
      by (simpl; lia).
    reflexivity.
  - apply Nat.ltb_ge in L. rewrite firstn_all2 by exact L. reflexivity.
Qed.

Lemma firstn_cons_firstn {X : Type} (x : X) l :
  firstn 100 (x :: firstn 100 l) = firstn 100 (x :: l).
Proof.
  change (firstn 100 (x :: firstn 100 l)) with (x :: firstn 99 (firstn 100 l)).
  change (firstn 100 (x :: l)) with (x :: firstn 99 l).
  rewrite firstn_firstn. reflexivity.
Qed.

(** X3. A tick that starts with at most 100 log entries only prepends to
    the log and only drops entries from its tail: the log afterwards is the
    first 100 entries of some new entries followed by the old log.  Every
    new entry carries a clock reading made during the tick, and the log
    still has at most 100 entries. *)
Theorem tick_log_prepends w c w' c' :
  (List.length (ai_log w) <= 100)%nat ->
  tick wall w c = Ok (w', c') ->
  exists new,
    ai_log w' = firstn 100 (new ++ ai_log w)%list /\
    (List.length (ai_log w') <= 100)%nat /\
    Forall (fun x => exists n, (c <= n < c')%nat /\ lg_timestamp x = wall n)
           new.
Proof.
  intros Hb H.
  destruct (tick_steps_inv wall
              (fun e => (c <= clk e)%nat /\
                 exists new,
                   log e = firstn 100 (new ++ ai_log w)%list /\
                   Forall (fun x => exists n, (c <= n < clk e)%nat /\
                                              lg_timestamp x = wall n) new))
    with (w := w) (c := c) (w' := w') (c' := c')
    as (ts & e1 & _ & _ & _ & new & Hl & Hn).
  - intros e (Hc & new & Hl & Hn). cbn [clk log].
    split; [lia|]. exists new. split; [exact Hl|].
    eapply Forall_impl; [|exact Hn]. simpl.
    intros x (n & Hr & Hx). exists n. split; [lia|exact Hx].
  - intros level message e e' (Hc & new & Hl & Hn) Hlog.
    assert (Hle : (List.length (log e) <= 100)%nat).
    { rewrite Hl. rewrite length_firstn. lia. }
    rewrite (log_ai_decision_firstn level message e Hle) in Hlog.
    inversion Hlog; subst. cbn [clk log].
    split; [lia|].
    exists (mkLog (wall (clk e)) level message :: new). split.
    + rewrite Hl. apply firstn_cons_firstn.
    + constructor.
      * exists (clk e). split; [lia|reflexivity].
      * eapply Forall_impl; [|exact Hn]. simpl.
        intros x (n & Hr & Hx). exists n. split; [lia|exact Hx].
  - cbn [clk log]. split; [lia|]. exists []. cbn [app].
    split; [|constructor].
    symmetry. apply firstn_all2. exact Hb.
  - exact H.
  - cbn [clk log] in Hl, Hn.
    exists new. split; [exact Hl|]. split; [|exact Hn].
    rewrite Hl. rewrite length_firstn. lia.
Qed.

End LogShape.

Lemma tick_log_prepends_witness :
  exists w' c' new,
    tick clock1 (initial_world 0) 3600 = Ok (w', c') /\
    ai_log w' = firstn 100 (new ++ ai_log (initial_world 0))%list /\
    (List.length (ai_log w') <= 100)%nat.
Proof.
  assert (H : exists w' c', tick clock1 (initial_world 0) 3600 = Ok (w', c')).
  { eexists. eexists. vm_compute. reflexivity. }
  destruct H as (w' & c' & H).
  destruct (tick_log_prepends clock1 (initial_world 0) 3600 w' c')
    as (new & Hl & Hb & _).
  - simpl. lia.
  - exact H.
  - exists w', c', new. auto.
Defined.

Section LogOrder.

Variable wall : nat -> Q.
Hypothesis wall_monotone : forall m n, (m <= n)%nat -> wall m <= wall n.

Lemma Forall_removelast {X : Type} (P : X -> Prop) l :
  Forall P l -> Forall P (removelast l).
Proof.
  induction 1 as [|x r Hx Hr IH]; simpl; [constructor|].
  destruct r; [constructor|]. constructor; assumption.
Qed.

Lemma newest_first_removelast l :
  newest_first l -> newest_first (removelast l).
Proof.
  unfold newest_first. induction 1 as [|x r Hr IH Hx]; simpl; [constructor|].
  destruct r as [|y r']; [constructor|].
  constructor; [exact IH|]. apply (Forall_removelast _ (y :: r')). exact Hx.
Qed.

(** X4. With a clock that never runs backwards, a tick keeps the log
    newest first: if the timestamps never increase from the head on and none
    is later than the clock reading at the start of the tick, the same holds
    after the tick, for the reading at its end. *)
Theorem tick_log_newest_first w c w' c' :
  newest_first (ai_log w) ->
  Forall (fun x => lg_timestamp x <= wall c) (ai_log w) ->
  tick wall w c = Ok (w', c') ->
  newest_first (ai_log w') /\
  Forall (fun x => lg_timestamp x <= wall c') (ai_log w').
Proof.
  intros Hs Hb H.
  destruct (tick_steps_inv wall
              (fun e => newest_first (log e) /\
                        Forall (fun x => lg_timestamp x <= wall (clk e))
                               (log e)))
    with (w := w) (c := c) (w' := w') (c' := c')
    as (ts & e1 & _ & _ & Hfin).
  - intros e [Hn Hf]. cbn [clk log]. split; [exact Hn|].
    eapply Forall_impl; [|exact Hf]. simpl. intros x Hx.
    eapply Qle_trans; [exact Hx|]. apply wall_monotone. lia.
  - intros level message e e' [Hn Hf] Hlog.
    set (entry := mkLog (wall (clk e)) level message).
    assert (He' : e' = mkEnv (S (clk e))
                         (if (100 <? List.length (entry :: log e))%nat
                          then removelast (entry :: log e)
                          else entry :: log e))
      by (unfold log_ai_decision in Hlog; cbv zeta in Hlog;
          injection Hlog as Hlog; symmetry; exact Hlog).
    subst e'. clear Hlog. cbn [clk log].
    assert (Hn' : newest_first (entry :: log e)).
    { constructor; [exact Hn|]. exact Hf. }
    assert (Hf' : Forall (fun x => lg_timestamp x <= wall (S (clk e)))
                         (entry :: log e)).
    { constructor.
      - simpl. apply wall_monotone. lia.
      - eapply Forall_impl; [|exact Hf]. simpl. intros x Hx.
        eapply Qle_trans; [exact Hx|]. apply wall_monotone. lia. }
    destruct (100 <? List.length (entry :: log e))%nat.
    + split; [apply newest_first_removelast; exact Hn'|].
      apply Forall_removelast. exact Hf'.
    + split; assumption.
  - cbn [clk log]. split; assumption.
  - exact H.
  - exact Hfin.
Qed.

End LogOrder.

Lemma tick_log_newest_first_witness :
  exists w' c',
    tick clock1 (initial_world 0) 3600 = Ok (w', c') /\
    newest_first (ai_log w').
Proof.
  assert (H : exists w' c', tick clock1 (initial_world 0) 3600 = Ok (w', c')).
  { eexists. eexists. vm_compute. reflexivity. }
  destruct H as (w' & c' & H). exists w', c'. split; [exact H|].
  refine (proj1 (tick_log_newest_first clock1 clock1_monotone
                   (initial_world 0) 3600 w' c' _ _ H)).
  - repeat constructor.
  - repeat constructor. vm_compute. discriminate.
Defined.

(** ** What a snapshot returns *)

Section Snapshot.






End Snapshot.


(** X6. The first call of [get_system_state] binds ["id"] to its own key in
    every train dictionary of [system_state] and changes nothing else; a
    further call, with any [since], changes nothing at all. *)
Theorem snapshot_writes_ids_once since1 since2 w :
  let w1 := snd (get_system_state since1 w) in
  trains w1 = map (fun kv => (fst kv, set_id (snd kv) (fst kv))) (trains w) /\
  signals w1 = signals w /\ lengths w1 = lengths w /\
  junctions w1 = junctions w /\ ai_log w1 = ai_log w /\ kpis w1 = kpis w /\
  snd (get_system_state since2 w1) = w1.
Proof.
  cbv zeta. rewrite !get_system_state_effect.
  cbn [trains signals lengths junctions ai_log kpis].
  repeat split. f_equal. rewrite map_map. apply map_ext.
  intros [k t]. reflexivity.
Qed.

(** ** Errors of the scenario advisor *)

(** X7. [simulate_scenario] raises exactly when the event type is
    'track_closure' or 'new_train' and the track_id is None or a string, and
    the exception is then TypeError; a 'delay' request never raises.  A
    response that is returned is the generic one or has a plan of three
    steps. *)
Theorem scenario_raises_iff data :
  (forall x,
     simulate_scenario data = Raise x <->
     x = TypeError /\
     (json_get "event_type" data = JStr "track_closure" \/
      json_get "event_type" data = JStr "new_train") /\
     (json_get "track_id" data = JNull \/
      exists s, json_get "track_id" data = JStr s)) /\
  (forall r, simulate_scenario data = Ok r ->
             r = unknown_response \/ List.length (plan r) = 3%nat).
Proof.
  unfold simulate_scenario.
  destruct (json_is (json_get "event_type" data) "delay") eqn:E1.
  { apply json_is_iff in E1. split.
    - intro x. split; [discriminate|].
      intros (_ & [H|H] & _); rewrite E1 in H; discriminate.
    - intros r H. inversion H; subst. right. reflexivity. }
  destruct (json_is (json_get "event_type" data) "track_closure") eqn:E2.
  { apply json_is_iff in E2. split.
    - intro x. destruct (json_get "track_id" data) as [|b|z|s]; simpl.
      + split; [intro H; inversion H; eauto 6|intros (-> & _); reflexivity].
      + split; [discriminate|]. intros (_ & _ & [H|(s & H)]); discriminate.
      + split; [discriminate|]. intros (_ & _ & [H|(s & H)]); discriminate.
      + split; [intro H; inversion H; eauto 6|intros (-> & _); reflexivity].
    - intros r H.
      destruct (json_succ (json_get "track_id" data)); [|discriminate].
      inversion H; subst. right. reflexivity. }
  destruct (json_is (json_get "event_type" data) "new_train") eqn:E3.
  { apply json_is_iff in E3. split.
    - intro x. destruct (json_get "track_id" data) as [|b|z|s]; simpl.
      + split; [intro H; inversion H; eauto 6|intros (-> & _); reflexivity].
      + split; [discriminate|]. intros (_ & _ & [H|(s & H)]); discriminate.
      + split; [discriminate|]. intros (_ & _ & [H|(s & H)]); discriminate.
      + split; [intro H; inversion H; eauto 6|intros (-> & _); reflexivity].
    - intros r H.
      destruct (json_succ (json_get "track_id" data)); [|discriminate].
      inversion H; subst. right. reflexivity. }
  apply json_is_false in E2, E3. split.
  - intro x. split; [discriminate|]. intros (_ & [H|H] & _); contradiction.
  - intros r H. inversion H; subst. left. reflexivity.
Qed.

(** ** The sort of the contenders *)

Section StableSort.

Lemma insert_by_priority_sorted x l :
  StronglySorted (fun a b => (tr_priority (snd a) <= tr_priority (snd b))%Z) l ->
  StronglySorted (fun a b => (tr_priority (snd a) <= tr_priority (snd b))%Z)
                 (insert_by_priority x l).
Proof.
  induction 1 as [|y r Hr IH Hy]; simpl.
  - constructor; constructor.
  - destruct (Z.leb_spec (tr_priority (snd x)) (tr_priority (snd y))) as [L|L].
    + constructor; [constructor; assumption|].
      constructor; [exact L|].
      eapply Forall_impl; [|exact Hy]. simpl. intros; lia.
    + constructor; [exact IH|].
      eapply Permutation_Forall.
      * symmetry. apply insert_by_priority_perm.
      * constructor; [lia|exact Hy].
Qed.

Lemma insert_by_priority_filter p x l :
  filter (fun y => (tr_priority (snd y) =? p)%Z) (insert_by_priority x l)
  = filter (fun y => (tr_priority (snd y) =? p)%Z) (x :: l).
Proof.
  induction l as [|y r IH]; [reflexivity|].
  cbn [insert_by_priority].
  destruct (Z.leb_spec (tr_priority (snd x)) (tr_priority (snd y))) as [L|L];
    [reflexivity|].
  cbn [filter] in *. rewrite IH.
  destruct (Z.eqb_spec (tr_priority (snd y)) p) as [Ey|Ey];
    destruct (Z.eqb_spec (tr_priority (snd x)) p) as [Ex|Ex];
    try reflexivity.
  exfalso. lia.
Qed.

(** X8. The sort of step 3 returns a permutation of its input in
    non-decreasing order of priority value, and it is stable: for every
    priority value, the entries of that value are in the same order after
    the sort as before. *)
Theorem sort_by_priority_stable l :
  Permutation (sort_by_priority l) l /\
  StronglySorted (fun a b => (tr_priority (snd a) <= tr_priority (snd b))%Z)
                 (sort_by_priority l) /\
  forall p,
    filter (fun y => (tr_priority (snd y) =? p)%Z) (sort_by_priority l)
    = filter (fun y => (tr_priority (snd y) =? p)%Z) l.
Proof.
  split; [apply sort_by_priority_perm|]. split.
  - induction l as [|x r IH]; simpl; [constructor|].
    apply insert_by_priority_sorted. exact IH.
  - intro p. induction l as [|x r IH]; [reflexivity|].
    cbn [sort_by_priority]. rewrite insert_by_priority_filter.
    cbn [filter]. rewrite IH. reflexivity.
Qed.

End StableSort.

(** ** Blocked or clear *)

Section BlockedOrClear.

Variable wall : nat -> Q.




End BlockedOrClear.


(** ** Signals that arbitration leaves alone *)

Section Unforced.

Variable wall : nat -> Q.

Lemma forced_all_far j wid near s :
  near_junction j (sg_position s) = false ->
  forced_all j wid near s = s.
Proof.
  intro Hf. unfold forced_all.
  induction near as [|x r IH]; simpl; [reflexivity|].
  assert (forced j wid s x = s) as ->; [|exact IH].
  unfold forced. rewrite Hf, andb_false_r. reflexivity.
Qed.




End Unforced.


(** ** The configuration of [setup_initial_state] *)

Section ShippedConfiguration.

Variable wall : nat -> Q.

Lemma Forall2_transfer {X Y : Type} (R : X -> Y -> Prop)
      (P : X -> Prop) (Q' : Y -> Prop) l l' :
  (forall a b, R a b -> P a -> Q' b) ->
  Forall2 R l l' -> Forall P l -> Forall Q' l'.
Proof.
  intros Himp HF. induction HF as [|a b r r' Hab _ IH]; intro HP;
    [constructor|].
  inversion HP; subst. constructor; eauto.
Qed.

Lemma arbitrated_all_far j ts sigs :
  Forall (fun kv : string * Signal =>
            near_junction j (sg_position (snd kv)) = false) sigs ->
  arbitrated j ts sigs = sigs.
Proof.
  intro Hfar. unfold arbitrated. cbv zeta.
  destruct (1 <? List.length (trains_near j ts))%nat; [|reflexivity].
  destruct (sort_by_priority (trains_near j ts)) as [|[wid wd] rest];
    [reflexivity|].
  induction Hfar as [|[k s] r Hs _ IH]; cbn [map fst snd]; [reflexivity|].
  rewrite IH. cbn [snd] in Hs. rewrite (forced_all_far j wid _ s Hs).
  reflexivity.
Qed.

(** X11. With the junction and the signal positions that
    [setup_initial_state] installs, arbitration never changes a signal:
    every signal is exactly 25 units from J1, which is not less than 25.
    Whatever the trains, the log and the clock, the signals after a tick
    are those of step 2, and their tracks and positions are still the
    initial ones, so the same holds for every later tick. *)
Theorem shipped_signals_never_forced w c w' c' :
  junctions w = initial_junctions ->
  Forall2 same_signal_frame initial_signals (signals w) ->
  tick wall w c = Ok (w', c') ->
  signals w' = map (recomputed (trains w')) (signals w) /\
  junctions w' = initial_junctions /\
  Forall2 same_signal_frame initial_signals (signals w').
Proof.
  intros Hj Hshape H.
  destruct (tick_signals wall w c w' c' H) as (j & Hj' & Hsg).
  rewrite Hj in Hj'. inversion Hj'; subst j. clear Hj'.
  assert (Hfar : Forall (fun kv : string * Signal =>
                           near_junction (mkJunction [0%Z; 1%Z] 50 ["S2"; "S4"])
                                         (sg_position (snd kv)) = false)
                        (map (recomputed (trains w')) (signals w))).
  { apply Forall_forall. intros kv Hin. apply in_map_iff in Hin.
    destruct Hin as ([k s] & <- & Hin). cbn [recomputed snd fst].
    change (sg_position (set_state s _)) with (sg_position s).
    revert k s Hin.
    assert (Hall : Forall (fun kv : string * Signal =>
                             near_junction
                               (mkJunction [0%Z; 1%Z] 50 ["S2"; "S4"])
                               (sg_position (snd kv)) = false) (signals w)).
    { refine (Forall2_transfer _ _ _ _ _ _ Hshape _).
      - intros a b (_ & _ & Hp) Ha. rewrite Hp. exact Ha.
      - repeat constructor. }
    intros k s Hin. rewrite Forall_forall in Hall. exact (Hall _ Hin). }
  rewrite (arbitrated_all_far _ _ _ Hfar) in Hsg.
  split; [exact Hsg|].
  destruct (tick_inversion wall w c w' c' H)
    as (ts & e1 & sg2 & e2 & sg3 & e3 & _ & _ & _ & Hw & _).
  split; [rewrite Hw; exact Hj|].
  rewrite Hsg. eapply Forall2_compose.
  - exact same_signal_frame_trans.
  - exact Hshape.
  - apply recomputed_frame.
Qed.

End ShippedConfiguration.

Lemma shipped_signals_never_forced_witness :
  exists w' c',
    tick clock1 (initial_world 0) 3600 = Ok (w', c') /\
    signals w' = map (recomputed (trains w')) initial_signals.
Proof.
  assert (H : exists w' c', tick clock1 (initial_world 0) 3600 = Ok (w', c')).
  { eexists. eexists. vm_compute. reflexivity. }
  destruct H as (w' & c' & H). exists w', c'. split; [exact H|].
  refine (proj1 (shipped_signals_never_forced clock1 (initial_world 0) 3600
                   w' c' eq_refl _ H)).
  repeat constructor.
Defined.

(** ** The loop *)

Section Loop.

Variable wall : nat -> Q.
Hypothesis wall_monotone : forall m n, (m <= n)%nat -> wall m <= wall n.








End Loop.



(** ** A snapshot between two ticks *)

Section SnapshotBetweenTicks.

Variable wall : nat -> Q.

Lemma mapM_ext {X Y : Type} (f g : X -> M Y) l :
  (forall a, f a = g a) -> mapM f l = mapM g l.
Proof.
  intro H. induction l as [|a r IH]; simpl; [reflexivity|].
  rewrite H, IH. reflexivity.
Qed.

Lemma blocking_signal_tag sigs t k :
  blocking_signal sigs (set_id t k) = blocking_signal sigs t.
Proof.
  induction sigs as [|[sid s] r IH]; simpl; [reflexivity|].
  rewrite IH. reflexivity.
Qed.

Lemma advance_train_tag sigs lens tid t k e :
  advance_train wall sigs lens tid (set_id t k) e =
    match advance_train wall sigs lens tid t e with
    | Ok (t', e') => Ok (set_id t' k, e')
    | Raise x => Raise x
    end.
Proof.
  unfold advance_train, bind, time_time. cbn [clk log].
  rewrite blocking_signal_tag.
  destruct (blocking_signal sigs t);
    cbn [tr_track tr_position tr_speed tr_last_update
         set_last_update set_status set_position set_id];
    destruct (lookup Z.eqb (tr_track t) lens); try reflexivity;
    match goal with
    | |- context [Qle_bool ?a ?b] => destruct (Qle_bool a b)
    end; reflexivity.
Qed.

Lemma advance_item_tag sigs lens kv e :
  advance_item wall sigs lens (tag_id kv) e =
    match advance_item wall sigs lens kv e with
    | Ok (b, e') => Ok (tag_id b, e')
    | Raise x => Raise x
    end.
Proof.
  destruct kv as [k t]. unfold advance_item, bind. cbn [fst snd tag_id].
  rewrite advance_train_tag.
  destruct (advance_train wall sigs lens k t e) as [[t' e1]|]; reflexivity.
Qed.

Lemma advance_trains_tag sigs lens ts : forall e,
  advance_trains wall sigs lens (map tag_id ts) e =
    match advance_trains wall sigs lens ts e with
    | Ok (ts', e') => Ok (map tag_id ts', e')
    | Raise x => Raise x
    end.
Proof.
  unfold advance_trains.
  induction ts as [|kv r IH]; intro e; [reflexivity|].
  cbn [map mapM]. unfold bind. rewrite advance_item_tag.
  destruct (advance_item wall sigs lens kv e) as [[b e1]|]; [|reflexivity].
  rewrite IH.
  destruct (mapM (advance_item wall sigs lens) r e1) as [[ts' e2]|];
    reflexivity.
Qed.

Lemma occupant_tag ts s : occupant (map tag_id ts) s = occupant ts s.
Proof.
  induction ts as [|[k t] r IH]; simpl; [reflexivity|].
  rewrite IH. reflexivity.
Qed.

Lemma manage_signals_tag ts sigs :
  manage_signals wall (map tag_id ts) sigs = manage_signals wall ts sigs.
Proof.
  unfold manage_signals. apply mapM_ext. intros [k s].
  unfold manage_signal. rewrite occupant_tag. reflexivity.
Qed.

Lemma trains_near_tag j ts :
  trains_near j (map tag_id ts) = map tag_id (trains_near j ts).
Proof.
  unfold trains_near. induction ts as [|[k t] r IH]; simpl; [reflexivity|].
  change (contends j (tag_id (k, t))) with (contends j (k, t)).
  destruct (contends j (k, t)); simpl; rewrite IH; reflexivity.
Qed.

Lemma insert_by_priority_tag x l :
  insert_by_priority (tag_id x) (map tag_id l)
  = map tag_id (insert_by_priority x l).
Proof.
  induction l as [|y r IH]; simpl; [reflexivity|].
  destruct (tr_priority (snd x) <=? tr_priority (snd y))%Z; simpl;
    [reflexivity|].
  rewrite IH. reflexivity.
Qed.

Lemma sort_by_priority_tag l :
  sort_by_priority (map tag_id l) = map tag_id (sort_by_priority l).
Proof.
  induction l as [|x r IH]; simpl; [reflexivity|].
  rewrite IH. apply insert_by_priority_tag.
Qed.

Lemma force_signals_tag j wid near : forall sigs e,
  force_signals wall j wid (map tag_id near) sigs e
  = force_signals wall j wid near sigs e.
Proof.
  induction near as [|[tid td] r IH]; intros sigs e; [reflexivity|].
  cbn [map tag_id fst snd force_signals]. unfold bind.
  change (mapM (force_signal wall j wid tid (set_id td tid)) sigs e)
    with (mapM (force_signal wall j wid tid td) sigs e).
  destruct (mapM (force_signal wall j wid tid td) sigs e) as [[sg e1]|];
    [apply IH|reflexivity].
Qed.

Lemma junction_conflicts_tag juncs ts sigs e :
  junction_conflicts wall juncs (map tag_id ts) sigs e
  = junction_conflicts wall juncs ts sigs e.
Proof.
  unfold junction_conflicts.
  destruct (lookup String.eqb "J1" juncs) as [j|]; [|reflexivity].
  cbv zeta. rewrite trains_near_tag, sort_by_priority_tag, length_map.
  destruct (1 <? List.length (trains_near j ts))%nat; [|reflexivity].
  destruct (sort_by_priority (trains_near j ts)) as [|[wid wd] rest] eqn:Es;
    [reflexivity|].
  cbn [map tag_id fst snd]. unfold bind.
  destruct (log_ai_decision wall WARNING (conflict_message wid) e)
    as [[[] e1]|]; [|reflexivity].
  exact (force_signals_tag j wid ((wid, wd) :: rest) sigs e1).
Qed.

(** X13. The ["id"] keys that [get_system_state] writes never change
    what the engine computes: a tick run after a snapshot returns what the
    snapshot would have left after that tick, with the same clock readings
    and the same log, and it raises exactly when the tick alone raises. *)
Theorem tick_after_snapshot since w c :
  tick wall (snd (get_system_state since w)) c =
    match tick wall w c with
    | Ok (w', c') => Ok (snd (get_system_state since w'), c')
    | Raise x => Raise x
    end.
Proof.
  rewrite get_system_state_effect. unfold tick, tick_body, bind.
  cbn [trains signals lengths junctions ai_log kpis].
  change (map (fun kv : string * Train => (fst kv, set_id (snd kv) (fst kv)))
              (trains w)) with (map tag_id (trains w)).
  rewrite advance_trains_tag.
  destruct (advance_trains wall (signals w) (lengths w) (trains w)
                           (mkEnv c (ai_log w))) as [[ts e1]|];
    [|reflexivity].
  rewrite manage_signals_tag.
  destruct (manage_signals wall ts (signals w) e1) as [[sg2 e2]|];
    [|reflexivity].
  rewrite junction_conflicts_tag.
  destruct (junction_conflicts wall (junctions w) ts sg2 e2) as [[sg3 e3]|];
    [|reflexivity].
  unfold ret. rewrite get_system_state_effect. reflexivity.
Qed.

End SnapshotBetweenTicks.

(** ** The signals listed in a junction *)

Section ControlledBy.

Variable wall : nat -> Q.

Lemma lookup_recontrol cb k juncs :
  lookup String.eqb k (recontrol cb juncs) =
    match lookup String.eqb k juncs with
    | Some j => Some (mkJunction (jn_tracks j) (jn_position j) (cb k))
    | None => None
    end.
Proof.
  induction juncs as [|[k' j] r IH]; simpl; [reflexivity|].
  destruct (String.eqb_spec k k') as [->|Hne]; [reflexivity|exact IH].
Qed.

Lemma force_signals_controlled j cb wid near : forall sigs e,
  force_signals wall (mkJunction (jn_tracks j) (jn_position j) cb) wid near
                sigs e
  = force_signals wall j wid near sigs e.
Proof.
  induction near as [|[tid td] r IH]; intros sigs e; [reflexivity|].
  cbn [force_signals]. unfold bind.
  rewrite (mapM_ext
             (force_signal wall (mkJunction (jn_tracks j) (jn_position j) cb)
                           wid tid td)
             (force_signal wall j wid tid td) sigs (fun a => eq_refl)).
  destruct (mapM (force_signal wall j wid tid td) sigs e) as [[sg e1]|];
    [apply IH|reflexivity].
Qed.

Lemma junction_conflicts_controlled cb juncs ts sigs e :
  junction_conflicts wall (recontrol cb juncs) ts sigs e
  = junction_conflicts wall juncs ts sigs e.
Proof.
  unfold junction_conflicts. rewrite lookup_recontrol.
  destruct (lookup String.eqb "J1" juncs) as [j|]; [|reflexivity].
  cbv zeta.
  change (trains_near (mkJunction (jn_tracks j) (jn_position j) (cb "J1")) ts)
    with (trains_near j ts).
  destruct (1 <? List.length (trains_near j ts))%nat; [|reflexivity].
  destruct (sort_by_priority (trains_near j ts)) as [|[wid wd] rest];
    [reflexivity|].
  unfold bind.
  destruct (log_ai_decision wall WARNING (conflict_message wid) e)
    as [[[] e1]|]; [|reflexivity].
  apply force_signals_controlled.
Qed.

(** X14. The list ["controlled_by"] of a junction is never read: with
    every such list replaced by any other, a tick raises in the same cases
    and returns the same trains, signals, log and clock.  The signals that
    arbitration forces are chosen by track and distance alone. *)
Theorem controlled_by_never_read cb w c :
  tick wall (recontrol_world cb w) c =
    match tick wall w c with
    | Ok (w', c') => Ok (recontrol_world cb w', c')
    | Raise x => Raise x
    end.
Proof.
  unfold tick, tick_body, bind, recontrol_world.
  cbn [trains signals lengths junctions ai_log kpis].
  destruct (advance_trains wall (signals w) (lengths w) (trains w)
                           (mkEnv c (ai_log w))) as [[ts e1]|];
    [|reflexivity].
  destruct (manage_signals wall ts (signals w) e1) as [[sg2 e2]|];
    [|reflexivity].
  rewrite junction_conflicts_controlled.
  destruct (junction_conflicts wall (junctions w) ts sg2 e2) as [[sg3 e3]|];
    reflexivity.
Qed.

End ControlledBy.

(** ** A log that is already too long *)

Section OverCapacity.

Variable wall : nat -> Q.

(** X15. [log_ai_decision] pops at most one entry per call.  On a log
    that already holds more than 100 entries the call still returns and
    puts the new entry at index 0, but the log keeps its length: the call
    never brings an over-long log back to 100. *)
Theorem log_over_capacity_keeps_length level message e :
  (100 < List.length (log e))%nat ->
  exists e',
    log_ai_decision wall level message e = Ok (tt, e') /\
    clk e' = S (clk e) /\
    nth_error (log e') 0 = Some (mkLog (wall (clk e)) level message) /\
    List.length (log e') = List.length (log e).
Proof.
  intro H. unfold log_ai_decision. cbv zeta.
  set (entry := mkLog (wall (clk e)) level message).
  eexists. split; [reflexivity|]. cbn [clk log].
  split; [reflexivity|]. split; [apply log_head|].
  destruct (100 <? List.length (entry :: log e))%nat eqn:L.
  - rewrite removelast_length. reflexivity.
  - apply Nat.ltb_ge in L. simpl in L. lia.
Qed.

End OverCapacity.

Lemma log_over_capacity_keeps_length_witness :
  let e := mkEnv 7 (repeat (mkLog 0 INFO "old") 150) in
  (100 < List.length (log e))%nat /\
  exists e',
    log_ai_decision clock1 ACTION "new" e = Ok (tt, e') /\
    List.length (log e') = 150%nat.
Proof.
  intro e.
  assert (H : (100 < List.length (log e))%nat)
    by (apply Nat.ltb_lt; vm_compute; reflexivity).
  split; [exact H|].
  destruct (log_over_capacity_keeps_length clock1 ACTION "new" e H)
    as (e' & Hok & _ & _ & Hlen).
  exists e'. split; [exact Hok|]. rewrite Hlen. reflexivity.
Defined.

(** Without junction J1 the first tick raises. *)
Example no_junction_raises : tick clock1 no_junction_world 0 = Raise KeyError.
Proof. reflexivity. Qed.
